(** * neotype prelude: Either, Maybe and These

    A shallow embedding of the containers of [either.ts] (Left / Right),
    [maybe.ts] (Nothing / Just) and [these.ts] (First / Second / Both), of
    their generator comprehensions ([Either.step], [Maybe.go], [doImpl]), of
    the reductions and collections built on them, and of the concurrent
    traversal [AsyncMaybe.traverseIntoPar].

    - Tagged unions are inductive types; the [Eq], [Ord] and [Semigroup]
      interfaces of [cmp.ts] and [cmb.ts] are type classes.
    - A generator is a finite tree of suspension points; [gen.next(v)] and
      [gen.return(r)] select a branch of the tree.  Side effects of the
      generator body are events appended to a log.
    - A promise is a cell that is pending or settled; the completion order of
      the dispatched computations is an explicit schedule. *)

From stdpp Require Import base list strings gmap.

(** ** The ordering and combination kernel ([cmp.ts], [cmb.ts]) *)

Inductive Ordering : Type := less | equal | greater.

Class Ord (A : Type) : Type := cmp : A -> A -> Ordering.
Class Semigroup (A : Type) : Type := cmb : A -> A -> A.

#[global] Hint Mode Ord ! : typeclass_instances.
#[global] Hint Mode Semigroup ! : typeclass_instances.

Class Eq (A : Type) : Type := eq : A -> A -> bool.
#[global] Hint Mode Eq ! : typeclass_instances.

(** What the interfaces require of an implementation: [eq] is an
    equivalence relation, and [cmp] is a total order that agrees with it. *)
Class LawfulEq (A : Type) `{Eq A} : Prop := {
  eq_reflexive : forall x : A, eq x x = true;
  eq_symmetric : forall x y : A, eq x y = eq y x;
  eq_transitive : forall x y z : A, eq x y = true -> eq y z = true -> eq x z = true;
}.

Class LawfulOrd (A : Type) `{Eq A, Ord A} : Prop := {
  cmp_equal_eq : forall x y : A, cmp x y = equal <-> eq x y = true;
  cmp_less_greater : forall x y : A, cmp x y = less <-> cmp y x = greater;
  cmp_less_transitive :
    forall x y z : A, cmp x y = less -> cmp y z = less -> cmp x z = less;
}.

(** Modelled from the spec: the [Semigroup] instance of [Ordering] lives in
    [cmp.ts], which is not part of the sources at hand.  The spec orders two
    paired values "lexicographically by F then S": the first comparison
    decides unless it is [equal]. *)
Definition Ordering_cmb (this that : Ordering) : Ordering :=
  match this with
  | equal => that
  | less => less
  | greater => greater
  end.

#[global] Instance Ordering_Semigroup : Semigroup Ordering := Ordering_cmb.

(** An instance to evaluate the laws at: the natural numbers under
    addition. *)
Module Examples.
#[global] Instance nat_Semigroup : Semigroup nat := Nat.add.
#[global] Instance nat_Eq : Eq nat := Nat.eqb.
#[global] Instance nat_Ord : Ord nat :=
  fun x y => match Nat.compare x y with Lt => less | Datatypes.Eq => equal | Gt => greater end.
End Examples.

(** [id] of [fn.ts] / [functions.ts]. *)
Definition id {A : Type} (x : A) : A := x.

(** ** Generators

    A generator object is modelled by the tree of everything it can still do.
    [Yield y k] is a generator suspended at a [yield] of [y]: the caller
    resumes it with [gen.next(v)] (branch [k (Next v)]) or with
    [gen.return(r)] (branch [k (Abort r)]), which makes the pending [yield]
    complete like a [return r] statement, so that enclosing [finally] blocks
    run.  [Eff e k] is generator code with an observable side effect [e],
    [Return r] is a [return] statement, and [Pure a] is the normal completion
    of a block with value [a].  The trees are finite: only generators that
    terminate under every resumption are represented. *)

Module Generator.

Inductive Resume (V R : Type) : Type :=
| Next (v : V)
| Abort (r : R).
Arguments Next {V R} v.
Arguments Abort {V R} r.

Inductive Gen (Ev Y V R A : Type) : Type :=
| Pure (a : A)
| Return (r : R)
| Eff (e : Ev) (k : Gen Ev Y V R A)
| Yield (y : Y) (k : Resume V R -> Gen Ev Y V R A).
Arguments Pure {Ev Y V R A} a.
Arguments Return {Ev Y V R A} r.
Arguments Eff {Ev Y V R A} e k.
Arguments Yield {Ev Y V R A} y k.

(** The body of a generator function ends in a [return] on every path. *)
Definition Generator (Ev Y V R : Type) : Type := Gen Ev Y V R Empty_set.

Section Blocks.
Context {Ev Y V R : Type}.

(** Sequencing of two blocks: [const a = first; rest(a)]. *)
Fixpoint bind {A B : Type} (g : Gen Ev Y V R A) (rest : A -> Gen Ev Y V R B)
    : Gen Ev Y V R B :=
  match g with
  | Pure a => rest a
  | Return r => Return r
  | Eff e k => Eff e (bind k rest)
  | Yield y k => Yield y (fun s => bind (k s) rest)
  end.

(** [try { body } finally { fin }]: [fin] runs when [body] completes,
    normally or by a [return]; the completion of [body] is kept unless
    [fin] itself returns. *)
Fixpoint tryFinally {A : Type} (body : Gen Ev Y V R A)
    (fin : Gen Ev Y V R unit) : Gen Ev Y V R A :=
  match body with
  | Pure a => bind fin (fun _ => Pure a)
  | Return r => bind fin (fun _ => Return r)
  | Eff e k => Eff e (tryFinally k fin)
  | Yield y k => Yield y (fun s => tryFinally (k s) fin)
  end.

(** A plain [yield y] expression. *)
Definition yield (y : Y) : Gen Ev Y V R V :=
  Yield y (fun s =>
    match s with
    | Next v => Pure v
    | Abort r => Return r
    end).

(** A statement whose only effect is the event [e]. *)
Definition effect (e : Ev) : Gen Ev Y V R unit := Eff e (Pure tt).

(** The events a generator may perform, on any path. *)
Fixpoint performs {A : Type} (c : Ev) (g : Gen Ev Y V R A) : Prop :=
  match g with
  | Pure _ | Return _ => False
  | Eff e k => e = c \/ performs c k
  | Yield _ k => exists s, performs c (k s)
  end.
End Blocks.

(** How often the event [c] is in a log. *)
Definition occurrences {Ev : Type} `{EqDecision Ev} (c : Ev) (log : list Ev)
    : nat :=
  length (filter (fun e => e = c) log).

End Generator.

(** ** Builders ([builder.ts]) *)

Module Builder.

(** The [Builder] interface: a builder object is a value of [State]; [add]
    mutates it and [finish] reads the result off. *)
Record Builder (T TFinish : Type) : Type := {
  State : Type;
  add : T -> State -> State;
  finish : State -> TFinish;
}.
Arguments State {T TFinish} _.
Arguments add {T TFinish} _ _ _.
Arguments finish {T TFinish} _ _.

(** A JavaScript array: a slot is an element or a hole. *)
Abbreviation Array T := (list (option T)).

(** [elems[idx] = elem]: an index past the end extends the array, leaving
    holes in between. *)
Definition Array_set {T : Type} (idx : nat) (elem : T) (elems : Array T)
    : Array T :=
  if decide (idx < length elems) then <[idx := Some elem]> elems
  else elems ++ replicate (idx - length elems) None ++ [Some elem].

(** The array after the entries [(i, w i)] were stored in the order
    [done], starting from the empty array. *)
Definition filled {T : Type} (w : nat -> T) (done : list nat) : Array T :=
  foldl (fun elems i => Array_set i (w i) elems) [] done.

(** Modelled from the spec: [ArrayEntryBuilder] of [builder.ts], which is
    not part of the sources at hand; the spec describes it as the
    "array-entry builder keyed by original index rather than completion
    order".  [add([idx, elem])] stores [elem] at index [idx] of an array
    that is empty at construction, [finish()] returns the array. *)
Definition ArrayEntryBuilder (T : Type) : Builder (nat * T) (Array T) := {|
  State := Array T;
  add entry elems := Array_set entry.1 entry.2 elems;
  finish elems := elems;
|}.

(** Modelled from the spec: [RecordEntryBuilder] of [builder.ts] (the
    "keyed-entry builder"): [add([key, elem])] sets the property [key] of
    an object that is empty at construction. *)
Definition RecordEntryBuilder (T : Type)
    : Builder (string * T) (gmap string T) := {|
  State := gmap string T;
  add entry elems := <[entry.1 := entry.2]> elems;
  finish elems := elems;
|}.

(** Modelled from the spec: [NoOpBuilder] of [builder.ts] (the "no-op
    builder"): [add] ignores its argument and [finish()] returns
    [undefined]. *)
Definition NoOpBuilder (T : Type) : Builder T unit := {|
  State := unit;
  add _ st := st;
  finish _ := tt;
|}.

End Builder.

(** ** These ([these.ts]) *)

Module These.

Inductive These (A B : Type) : Type :=
| First (value : A)
| Second (value : B)
| Both (fst : A) (snd : B).
Arguments First {A B} value.
Arguments Second {A B} value.
Arguments Both {A B} fst snd.

(** The second component of every yielded pair. *)
Inductive Uid : Type := uid.

Definition first {A B : Type} (x : A) : These A B := First x.
Definition second {A B : Type} (x : B) : These A B := Second x.
Definition both {A B : Type} (x : A) (y : B) : These A B := Both x y.

Definition here {A B : Type} (these : These A B) : bool :=
  match these with First _ => true | _ => false end.
Definition there {A B : Type} (these : These A B) : bool :=
  match these with Second _ => true | _ => false end.
Definition paired {A B : Type} (these : These A B) : bool :=
  match these with Both _ _ => true | _ => false end.

Section Syntax.
Context {A B : Type}.

(** [Syntax[Ord.cmp]] *)
Definition Syntax_cmp `{Ord A, Ord B} (this that : These A B) : Ordering :=
  match this with
  | First a =>
      match that with
      | First b => cmp a b
      | _ => less
      end
  | Second x =>
      match that with
      | Second y => cmp x y
      | First _ => greater
      | Both _ _ => less
      end
  | Both a x =>
      match that with
      | Both b y => cmb (cmp a b) (cmp x y)
      | _ => greater
      end
  end.

(** [Syntax[Semigroup.cmb]] *)
Definition Syntax_cmb `{Semigroup A, Semigroup B}
    (this that : These A B) : These A B :=
  match this with
  | First a =>
      match that with
      | First b => first (cmb a b)
      | Second y => both a y
      | Both b y => both (cmb a b) y
      end
  | Second x =>
      match that with
      | First b => both b x
      | Second y => second (cmb x y)
      | Both b y => both b (cmb x y)
      end
  | Both a x =>
      match that with
      | First b => both (cmb a b) x
      | Second y => both a (cmb x y)
      | Both b y => both (cmb a b) (cmb x y)
      end
  end.

Definition fold {C : Type} (this : These A B)
    (foldL : A -> C) (foldR : B -> C) (foldLR : A -> B -> C) : C :=
  match this with
  | First a => foldL a
  | Second x => foldR x
  | Both a x => foldLR a x
  end.

Definition bimap {C D : Type} (this : These A B)
    (mapL : A -> C) (mapR : B -> D) : These C D :=
  match this with
  | First a => first (mapL a)
  | Second x => second (mapR x)
  | Both a x => both (mapL a) (mapR x)
  end.

Definition mapFirst {C : Type} (this : These A B) (f : A -> C) : These C B :=
  match this with
  | Second x => Second x
  | First a => first (f a)
  | Both a x => both (f a) x
  end.

Definition map {D : Type} (this : These A B) (f : B -> D) : These A D :=
  match this with
  | First a => First a
  | Second x => second (f x)
  | Both a x => both a (f x)
  end.

Definition mapTo {D : Type} (this : These A B) (value : D) : These A D :=
  map this (fun _ => value).
End Syntax.

Section Chaining.
Context {E : Type} `{Semigroup E}.

Definition flatMap {A B : Type} (this : These E A) (f : A -> These E B)
    : These E B :=
  match this with
  | First e => First e
  | Second x => f x
  | Both e x => mapFirst (f x) (fun y => cmb e y)
  end.

Definition flat {A : Type} (this : These E (These E A)) : These E A :=
  flatMap this id.

Definition zipWith {A B C : Type} (this : These E A) (that : These E B)
    (f : A -> B -> C) : These E C :=
  flatMap this (fun x => map that (fun y => f x y)).

Definition zipFst {A B : Type} (this : These E A) (that : These E B)
    : These E A :=
  zipWith this that (fun x _ => x).

Definition zipSnd {A B : Type} (this : These E A) (that : These E B)
    : These E B :=
  flatMap this (fun _ => that).
End Chaining.


(** *** Generator comprehensions

    [doImpl_from] is the [while] loop of [doImpl], started at the state
    the generator is in: an [Eff] node is generator code run by the pending
    [next] call, a [Yield] node is a result with [done = false], and a
    [Return] node a result with [done = true].  [e] is the accumulator
    [let e: E | undefined] ([E] implements [Semigroup], so a defined [e]
    is an object and truthy).  The function returns the log of the
    events performed by the generator together with the result. *)
Section Comprehension.
Import Generator.
Context {Ev E : Type} `{Semigroup E}.

(** [yield* t] delegates to [t[Symbol.iterator]], whose body is
    [return (yield [this, uid])]. *)
Definition yieldStar {V R : Type} (t : These E V)
    : Gen Ev (These E V * Uid) V R V :=
  yield (t, uid).

Fixpoint doImpl_from {V A : Type}
    (nx : Generator Ev (These E V * Uid) V A) (e : option E)
    (log : list Ev) : list Ev * These E A :=
  match nx with
  | Pure a => match a with end
  | Return value =>
      (log, match e with
            | Some e => both e value
            | None => second value
            end)
  | Eff ev k => doImpl_from k e (log ++ [ev])
  | Yield value k =>
      match value.1 with
      | Second x => doImpl_from (k (Next x)) e log
      | Both a x =>
          doImpl_from (k (Next x))
            (Some match e with
                  | Some e => cmb e a
                  | None => a
                  end)
            log
      | First a =>
          (log, match e with
                | Some e => first (cmb e a)
                | None => First a
                end)
      end
  end.

Definition doImpl {V A : Type} (nxs : Generator Ev (These E V * Uid) V A)
    : list Ev * These E A :=
  doImpl_from nxs None [].

Definition doThese {V A : Type}
    (f : unit -> Generator Ev (These E V * Uid) V A) : list Ev * These E A :=
  doImpl (f tt).

(** The generator of [reduceThese], from the iteration over [xs] on:
    [for (const x of xs) { acc = yield* f(acc, x); } return acc;] *)
Fixpoint reduceThese_loop {A B : Type} (f : B -> A -> These E B)
    (xs : list A) (acc : B) : Generator Ev (These E B * Uid) B B :=
  match xs with
  | [] => Return acc
  | x :: xs => bind (yieldStar (f acc x)) (reduceThese_loop f xs)
  end.

Definition reduceThese {A B : Type} (xs : list A) (f : B -> A -> These E B)
    (z : B) : list Ev * These E B :=
  doThese (fun _ => reduceThese_loop f xs z).
End Comprehension.

(** [Syntax[Eq.eq]] *)
Definition Syntax_eq {A B : Type} `{Eq A, Eq B} (this that : These A B) : bool :=
  match this with
  | First a => match that with First b => eq a b | _ => false end
  | Second x => match that with Second y => eq x y | _ => false end
  | Both a x => match that with Both b y => eq a b && eq x y | _ => false end
  end.

(** *** Collecting *)
Section Collecting.
Import Generator Builder.
Context {Ev E : Type} `{Semigroup E}.

(** The generator of [traverseThese], from the iteration over [xs] on:
    [for (const x of xs) { ys.push(yield* f(x)); } return ys;] *)
Fixpoint traverseThese_loop {A B : Type} (f : A -> These E B) (xs : list A)
    (ys : list B) : Generator Ev (These E B * Uid) B (list B) :=
  match xs with
  | [] => Return ys
  | x :: xs => bind (yieldStar (f x)) (fun y => traverseThese_loop f xs (ys ++ [y]))
  end.

Definition traverseThese {A B : Type} (xs : list A) (f : A -> These E B)
    : list Ev * These E (list B) :=
  doThese (fun _ => traverseThese_loop f xs []).

(** The generator of [zipThese], from index [ix] on, with [xs] the elements
    from that index:
    [for (...; ix < l; ix++) { ys[ix] = yield* xs[ix]; } return ys;] *)
Fixpoint zipThese_loop {A : Type} (xs : list (These E A)) (ix : nat)
    (ys : Array A) : Generator Ev (These E A * Uid) A (Array A) :=
  match xs with
  | [] => Return ys
  | x :: xs =>
      bind (yieldStar x) (fun y => zipThese_loop xs (S ix) (Array_set ix y ys))
  end.

(** [new Array(l)] is an array of [l] holes. *)
Definition zipThese {A : Type} (xs : list (These E A))
    : list Ev * These E (Array A) :=
  doThese (fun _ => zipThese_loop xs 0 (replicate (length xs) None)).

Definition tupledThese {A : Type} (xs : list (These E A))
    : list Ev * These E (Array A) :=
  zipThese xs.
End Collecting.

#[global] Instance These_Eq {A B : Type} `{Eq A, Eq B} : Eq (These A B) :=
  Syntax_eq.
#[global] Instance These_Ord {A B : Type} `{Ord A, Ord B} : Ord (These A B) :=
  Syntax_cmp.
#[global] Instance These_Semigroup {A B : Type} `{Semigroup A, Semigroup B}
  : Semigroup (These A B) := Syntax_cmb.

End These.

(** ** Either ([either.ts]) *)

Module Either.

Inductive Either (A B : Type) : Type :=
| Left (val : A)
| Right (val : B).
Arguments Left {A B} val.
Arguments Right {A B} val.

Definition left {A B : Type} (val : A) : Either A B := Left val.
Definition right {A B : Type} (val : B) : Either A B := Right val.

Section Syntax.
Context {A B : Type}.

Definition isLeft (this : Either A B) : bool :=
  match this with Left _ => true | Right _ => false end.
Definition isRight (this : Either A B) : bool :=
  match this with Left _ => false | Right _ => true end.

(** [Syntax[Ord.cmp]] *)
Definition Syntax_cmp `{Ord A, Ord B} (this that : Either A B) : Ordering :=
  match this with
  | Left a => match that with Left b => cmp a b | Right _ => less end
  | Right x => match that with Right y => cmp x y | Left _ => greater end
  end.

Definition unwrap {T : Type} (this : Either A B)
    (unwrapLeft : A -> T) (unwrapRight : B -> T) : T :=
  match this with
  | Left a => unwrapLeft a
  | Right x => unwrapRight x
  end.

Definition recover {A1 : Type} (this : Either A B) (f : A -> Either A1 B)
    : Either A1 B :=
  match this with
  | Left a => f a
  | Right x => Right x
  end.

Definition flatMap {B1 : Type} (this : Either A B) (f : B -> Either A B1)
    : Either A B1 :=
  match this with
  | Left a => Left a
  | Right x => f x
  end.

Definition lmap {A1 : Type} (this : Either A B) (f : A -> A1) : Either A1 B :=
  recover this (fun val => left (f val)).
End Syntax.

Definition map {A B B1 : Type} (this : Either A B) (f : B -> B1)
    : Either A B1 :=
  flatMap this (fun val => right (f val)).

Definition zipWith {E T T1 T2 : Type} (this : Either E T) (that : Either E T1)
    (f : T -> T1 -> T2) : Either E T2 :=
  flatMap this (fun lhs => map that (fun rhs => f lhs rhs)).

Definition zipFst {E T T1 : Type} (this : Either E T) (that : Either E T1)
    : Either E T :=
  zipWith this that (fun lhs _ => lhs).

Definition zipSnd {E T T1 : Type} (this : Either E T) (that : Either E T1)
    : Either E T1 :=
  flatMap this (fun _ => that).

(** [Syntax[Semigroup.cmb]] *)
Definition Syntax_cmb {E T : Type} `{Semigroup T} (this that : Either E T)
    : Either E T :=
  zipWith this that cmb.

(** *** Callbacks with an observable side effect

    A callback that counts its own invocations is a function in the state
    monad over the counter; [stub f] is the counting stub around [f]. *)
Definition Calls (X : Type) : Type := nat -> X * nat.
Definition stub {X Y : Type} (f : X -> Y) : X -> Calls Y :=
  fun x calls => (f x, S calls).
Definition silent {X Y : Type} (f : X -> Y) : X -> Calls Y :=
  fun x calls => (f x, calls).

(** [flatMap] applied to an effectful callback: the callback's effect takes
    place exactly where the source calls [f(this.val)]. *)
Definition flatMap_calls {A B B1 : Type} (this : Either A B)
    (f : B -> Calls (Either A B1)) : Calls (Either A B1) :=
  match this with
  | Left a => fun calls => (Left a, calls)
  | Right x => f x
  end.


(** *** Generator comprehensions *)

(** The generator handed to [step] returns [TReturn | typeof halt]; [halt]
    is the private symbol of the module. *)
Inductive OrHalt (TReturn : Type) : Type :=
| halt
| returned (result : TReturn).
Arguments halt {TReturn}.
Arguments returned {TReturn} result.

Section Comprehension.
Import Generator.
Context {Ev E V TReturn : Type}.
(** The value of [let err: any] before its first assignment. *)
Variable undefined : E.

(** [yield* either] delegates to [either[Symbol.iterator]], whose body is
    [return (yield this)]. *)
Definition yieldStar {R : Type} (either : Either E V)
    : Gen Ev (Either E V) V R V :=
  yield either.

(** The [while] loop of [step] and the two statements after it, started
    at the state the generator is in (see [These.doImpl_from]). *)
Fixpoint step_from (nxt : Generator Ev (Either E V) V (OrHalt TReturn))
    (err : E) (log : list Ev) : list Ev * Either E TReturn :=
  match nxt with
  | Pure a => match a with end
  | Return result =>
      (log, match result with
            | halt => left err
            | returned result => right result
            end)
  | Eff ev k => step_from k err (log ++ [ev])
  | Yield either k =>
      match either with
      | Right val => step_from (k (Next val)) err log
      | Left val => step_from (k (Abort halt)) val log
      end
  end.

Definition step (gen : Generator Ev (Either E V) V (OrHalt TReturn))
    : list Ev * Either E TReturn :=
  step_from gen undefined [].

Definition go (f : unit -> Generator Ev (Either E V) V (OrHalt TReturn))
    : list Ev * Either E TReturn :=
  step (f tt).
End Comprehension.

(** [Syntax[Eq.eq]] *)
Definition Syntax_eq {A B : Type} `{Eq A, Eq B} (this that : Either A B) : bool :=
  match this with
  | Left a => match that with Left b => eq a b | Right _ => false end
  | Right x => match that with Right y => eq x y | Left _ => false end
  end.

(** *** Collecting *)
Section Collecting.
Import Generator Builder.
Context {Ev E : Type}.
(** The value of [let err: any] in [step] before its first assignment. *)
Variable undefined : E.

(** The generator of [reduce], from the iteration over [vals] on:
    [for (const val of vals) { acc = yield* accum(acc, val); } return acc;] *)
Fixpoint reduce_loop {T TAcc : Type} (accum : TAcc -> T -> Either E TAcc)
    (vals : list T) (acc : TAcc)
    : Generator Ev (Either E TAcc) TAcc (OrHalt TAcc) :=
  match vals with
  | [] => Return (returned acc)
  | val :: vals => bind (yieldStar (accum acc val)) (reduce_loop accum vals)
  end.

Definition reduce {T TAcc : Type} (vals : list T)
    (accum : TAcc -> T -> Either E TAcc) (initial : TAcc)
    : list Ev * Either E TAcc :=
  go undefined (fun _ => reduce_loop accum vals initial).

(** The generator of [collect], from the entry [[idx, either]] on, with
    [eithers] the elements from that index:
    [for (const [idx, either] of eithers.entries()) {
       results[idx] = yield* either; } return results;] *)
Fixpoint collect_loop {T : Type} (eithers : list (Either E T)) (idx : nat)
    (results : Array T) : Generator Ev (Either E T) T (OrHalt (Array T)) :=
  match eithers with
  | [] => Return (returned results)
  | either :: eithers =>
      bind (yieldStar either)
        (fun val => collect_loop eithers (S idx) (Array_set idx val results))
  end.

(** [new Array(eithers.length)] is an array of that many holes. *)
Definition collect {T : Type} (eithers : list (Either E T))
    : list Ev * Either E (Array T) :=
  go undefined
    (fun _ => collect_loop eithers 0 (replicate (length eithers) None)).

(** [lift(f)(...eithers)], with the arguments of [f] given as an array. *)
Definition lift {T T1 : Type} (f : Array T -> T1) (eithers : list (Either E T))
    : list Ev * Either E T1 :=
  let r := collect eithers in (r.1, map r.2 f).
End Collecting.

#[global] Instance Either_Eq {A B : Type} `{Eq A, Eq B} : Eq (Either A B) :=
  Syntax_eq.
#[global] Instance Either_Ord {A B : Type} `{Ord A, Ord B} : Ord (Either A B) :=
  Syntax_cmp.
#[global] Instance Either_Semigroup {E T : Type} `{Semigroup T}
  : Semigroup (Either E T) := Syntax_cmb.

End Either.

(** ** Maybe ([maybe.ts]) *)

Module Maybe.

Inductive Maybe (T : Type) : Type :=
| Nothing
| Just (val : T).
Arguments Nothing {T}.
Arguments Just {T} val.

Definition just {T : Type} (val : T) : Maybe T := Just val.
Definition nothing {T : Type} : Maybe T := Nothing.

Section Syntax.
Context {T : Type}.

Definition isNothing (this : Maybe T) : bool :=
  match this with Nothing => true | Just _ => false end.
Definition isJust (this : Maybe T) : bool :=
  match this with Nothing => false | Just _ => true end.

(** [Syntax[Ord.cmp]] *)
Definition Syntax_cmp `{Ord T} (this that : Maybe T) : Ordering :=
  match this with
  | Nothing => match that with Nothing => equal | Just _ => less end
  | Just x => match that with Nothing => greater | Just y => cmp x y end
  end.

(** [Syntax[Semigroup.cmb]] *)
Definition Syntax_cmb `{Semigroup T} (this that : Maybe T) : Maybe T :=
  match this with
  | Just x =>
      match that with
      | Just y => just (cmb x y)
      | Nothing => Just x
      end
  | Nothing => that
  end.

Definition unwrap {T1 : Type} (this : Maybe T)
    (ifNothing : unit -> T1) (unwrapJust : T -> T1) : T1 :=
  match this with
  | Nothing => ifNothing tt
  | Just x => unwrapJust x
  end.

Definition orElse (this : Maybe T) (f : unit -> Maybe T) : Maybe T :=
  match this with
  | Nothing => f tt
  | Just x => Just x
  end.

Definition andThen {T1 : Type} (this : Maybe T) (f : T -> Maybe T1)
    : Maybe T1 :=
  match this with
  | Nothing => Nothing
  | Just x => f x
  end.
End Syntax.

Definition map {T T1 : Type} (this : Maybe T) (f : T -> T1) : Maybe T1 :=
  andThen this (fun val => just (f val)).

Definition zipWith {T T1 T2 : Type} (this : Maybe T) (that : Maybe T1)
    (f : T -> T1 -> T2) : Maybe T2 :=
  andThen this (fun lhs => map that (fun rhs => f lhs rhs)).


(** *** Generator comprehensions *)
Section Comprehension.
Import Generator.
Context {Ev V TReturn : Type}.
(** [undefined as any], at the return type of the generator. *)
Variable undefined : TReturn.

(** [yield* maybe] delegates to [maybe[Symbol.iterator]], whose body is
    [return (yield this)]. *)
Definition yieldStar {R : Type} (maybe : Maybe V) : Gen Ev (Maybe V) V R V :=
  yield maybe.

(** The [while] loop of [go] and its final [return], started at the
    state the generator is in (see [These.doImpl_from]). *)
Fixpoint go_from (nxt : Generator Ev (Maybe V) V TReturn) (isHalted : bool)
    (log : list Ev) : list Ev * Maybe TReturn :=
  match nxt with
  | Pure a => match a with end
  | Return value => (log, if isHalted then nothing else just value)
  | Eff ev k => go_from k isHalted (log ++ [ev])
  | Yield maybe k =>
      match maybe with
      | Just val => go_from (k (Next val)) isHalted log
      | Nothing => go_from (k (Abort undefined)) true log
      end
  end.

Definition go (gen : Generator Ev (Maybe V) V TReturn)
    : list Ev * Maybe TReturn :=
  go_from gen false [].

(** Whether the run of [go] on the generator comes to a yielded Nothing:
    the generator is followed along the values [go] resumes it with. *)
Fixpoint observesNothing (nxt : Generator Ev (Maybe V) V TReturn) : bool :=
  match nxt with
  | Pure a => match a with end
  | Return _ => false
  | Eff _ k => observesNothing k
  | Yield maybe k =>
      match maybe with
      | Just val => observesNothing (k (Next val))
      | Nothing => true
      end
  end.
End Comprehension.

(** [Syntax[Eq.eq]] *)
Definition Syntax_eq {T : Type} `{Eq T} (this that : Maybe T) : bool :=
  match this with
  | Nothing => isNothing that
  | Just x => match that with Just y => eq x y | Nothing => false end
  end.

(** *** Nullish values and predicates *)

(** A value of type [T | null | undefined], for a type [T] that holds
    neither [null] nor [undefined]. *)
Inductive Nullish (T : Type) : Type :=
| null
| undefined
| defined (val : T).
Arguments null {T}.
Arguments undefined {T}.
Arguments defined {T} val.

Definition fromNullish {T : Type} (val : Nullish T) : Maybe T :=
  match val with
  | null | undefined => nothing
  | defined val => just val
  end.

Definition wrapFn {TArgs T : Type} (f : TArgs -> Nullish T) : TArgs -> Maybe T :=
  fun args => fromNullish (f args).

Definition wrapPred {T : Type} (f : T -> bool) : T -> Maybe T :=
  fun val => if f val then just val else nothing.

Definition getOrElse {T : Type} (this : Maybe T) (f : unit -> T) : T :=
  unwrap this f id.

Definition getOr {T : Type} (this : Maybe T) (fallback : T) : T :=
  unwrap this (fun _ => fallback) id.

Definition toNullish {T : Type} (this : Maybe T) : Nullish T :=
  unwrap this (fun _ => undefined) defined.

Definition or {T : Type} (this that : Maybe T) : Maybe T :=
  orElse this (fun _ => that).

Definition and {T T1 : Type} (this : Maybe T) (that : Maybe T1) : Maybe T1 :=
  andThen this (fun _ => that).

Definition mapNullish {T T1 : Type} (this : Maybe T) (f : T -> Nullish T1)
    : Maybe T1 :=
  andThen this (fun val => fromNullish (f val)).

Definition filter {T : Type} (this : Maybe T) (f : T -> bool) : Maybe T :=
  andThen this (fun val => if f val then just val else nothing).

(** *** Collecting *)
Section Collecting.
Import Generator Builder.
Context {Ev : Type}.

(** The generator of [reduce], from the iteration over [elems] on:
    [for (const val of elems) { acc = yield* accum(acc, val); } return acc;] *)
Fixpoint reduce_loop {T TAcc : Type} (accum : TAcc -> T -> Maybe TAcc)
    (elems : list T) (acc : TAcc) : Generator Ev (Maybe TAcc) TAcc TAcc :=
  match elems with
  | [] => Return acc
  | val :: elems => bind (yieldStar (accum acc val)) (reduce_loop accum elems)
  end.

(** [undef] is the [undefined as any] that [go] passes to [gen.return]. *)
Definition reduce {T TAcc : Type} (undef : TAcc) (elems : list T)
    (accum : TAcc -> T -> Maybe TAcc) (initial : TAcc)
    : list Ev * Maybe TAcc :=
  go undef (reduce_loop accum elems initial).

(** The generator of [traverseInto], from the iteration over [elems] on;
    the builder object is the state [builder]:
    [for (const elem of elems) { builder.add(yield* f(elem, idx)); idx++; }
     return builder.finish();] *)
Fixpoint traverseInto_loop {T T1 TFinish : Type} (f : T -> nat -> Maybe T1)
    (B : Builder T1 TFinish) (elems : list T) (idx : nat) (builder : State B)
    : Generator Ev (Maybe T1) T1 TFinish :=
  match elems with
  | [] => Return (finish B builder)
  | elem :: elems =>
      bind (yieldStar (f elem idx))
        (fun val => traverseInto_loop f B elems (S idx) (add B val builder))
  end.

Definition traverseInto {T T1 TFinish : Type} (undef : TFinish)
    (elems : list T) (f : T -> nat -> Maybe T1) (B : Builder T1 TFinish)
    (builder : State B) : list Ev * Maybe TFinish :=
  go undef (traverseInto_loop f B elems 0 builder).

Definition traverseEntriesInto {K V V1 TFinish : Type} (undef : TFinish)
    (entries : list (K * V)) (f : V -> K -> nat -> Maybe V1)
    (B : Builder (K * V1) TFinish) (builder : State B)
    : list Ev * Maybe TFinish :=
  traverseInto undef entries
    (fun entry idx => map (f entry.2 entry.1 idx) (fun val => (entry.1, val)))
    B builder.

Definition allInto {T TFinish : Type} (undef : TFinish) (maybes : list (Maybe T))
    (B : Builder T TFinish) (builder : State B) : list Ev * Maybe TFinish :=
  traverseInto undef maybes (fun elem _ => id elem) B builder.
End Collecting.

#[global] Instance Maybe_Eq {T : Type} `{Eq T} : Eq (Maybe T) := Syntax_eq.
#[global] Instance Maybe_Ord {T : Type} `{Ord T} : Ord (Maybe T) := Syntax_cmp.
#[global] Instance Maybe_Semigroup {T : Type} `{Semigroup T}
  : Semigroup (Maybe T) := Syntax_cmb.

End Maybe.

(** ** AsyncMaybe ([maybe.ts]) *)

Module AsyncMaybe.
Import Maybe Builder.

(** What a promise-like value settles to, if it ever does. *)
Inductive Outcome (Reason X : Type) : Type :=
| Fulfilled (x : X)
| Rejected (reason : Reason).
Arguments Fulfilled {Reason X} x.
Arguments Rejected {Reason X} reason.

(** The state of a promise: pending ([None]) or settled. *)
Definition Promise (Reason X : Type) : Type := option (Outcome Reason X).

(** [async (..) => g(await p)] for a function [g] that does not throw. *)
Definition awaitThen {Reason X X1 : Type} (p : Outcome Reason X) (g : X -> X1)
    : Outcome Reason X1 :=
  match p with
  | Fulfilled x => Fulfilled (g x)
  | Rejected reason => Rejected reason
  end.

Section TraverseIntoPar.
Context {Reason T T1 TFinish : Type}.
Variable f : T -> nat -> Outcome Reason (Maybe T1).
Variable B : Builder T1 TFinish.

(** The variables shared by the executor and the callbacks it registers:
    the counter [remaining], the builder, the promise under construction
    and, per dispatched element, the [then] callback that is still to
    run, with the outcome of the promise it is attached to. *)
Record Exec : Type := {
  remaining : nat;
  builder : State B;
  promise : Promise Reason (Maybe TFinish);
  reactions : list (option (Outcome Reason (Maybe T1)));
}.

(** [resolve(value)] and [reject(reason)] settle a pending promise and do
    nothing to a settled one. *)
Definition resolve (value : Maybe TFinish) (st : Exec) : Exec :=
  match promise st with
  | None =>
      {| remaining := remaining st; builder := builder st;
         promise := Some (Fulfilled value); reactions := reactions st |}
  | Some _ => st
  end.

Definition reject (reason : Reason) (st : Exec) : Exec :=
  match promise st with
  | None =>
      {| remaining := remaining st; builder := builder st;
         promise := Some (Rejected reason); reactions := reactions st |}
  | Some _ => st
  end.

(** The [for] loop of the executor: it runs to completion before any
    callback does. *)
Fixpoint dispatch (elems : list T) (st : Exec) : Exec :=
  match elems with
  | [] => st
  | elem :: elems =>
      let idx := remaining st in
      dispatch elems
        {| remaining := S (remaining st); builder := builder st;
           promise := promise st;
           reactions := reactions st ++ [Some (f elem idx)] |}
  end.

(** The fulfilment callback [(maybe) => { ... }]. *)
Definition onFulfilled (maybe : Maybe T1) (st : Exec) : Exec :=
  match maybe with
  | Nothing => resolve Nothing st
  | Just val =>
      let st :=
        {| remaining := pred (remaining st);
           builder := add B val (builder st);
           promise := promise st; reactions := reactions st |} in
      if decide (remaining st = 0)
      then resolve (just (finish B (builder st))) st
      else st
  end.

(** The promise of the [i]-th dispatched element settles: its callback
    runs, once. *)
Definition complete (st : Exec) (i : nat) : Exec :=
  match reactions st !! i with
  | Some (Some outcome) =>
      let st :=
        {| remaining := remaining st; builder := builder st;
           promise := promise st;
           reactions := <[i := None]> (reactions st) |} in
      match outcome with
      | Fulfilled maybe => onFulfilled maybe st
      | Rejected reason => reject reason st
      end
  | _ => st
  end.

(** The shared variables when the executor's loop is over. *)
Definition dispatched (elems : list T) (builder : State B) : Exec :=
  dispatch elems
    {| remaining := 0; builder := builder; promise := None;
       reactions := [] |}.

(** The state of the returned promise after the dispatched promises
    settled in the order [schedule]. *)
Definition traverseIntoPar (elems : list T) (builder : State B)
    (schedule : list nat) : Promise Reason (Maybe TFinish) :=
  promise (foldl complete (dispatched elems builder) schedule).
End TraverseIntoPar.

Section Derived.
Context {Reason : Type}.

Definition traverseEntriesIntoPar {K V V1 TFinish : Type}
    (entries : list (K * V))
    (f : V -> K -> nat -> Outcome Reason (Maybe V1))
    (B : Builder (K * V1) TFinish) (builder : State B)
    (schedule : list nat) : Promise Reason (Maybe TFinish) :=
  traverseIntoPar
    (fun entry idx =>
       awaitThen (f entry.2 entry.1 idx)
         (fun maybe => map maybe (fun val => (entry.1, val))))
    B entries builder schedule.

Definition traversePar {T T1 : Type} (elems : list T)
    (f : T -> nat -> Outcome Reason (Maybe T1)) (schedule : list nat)
    : Promise Reason (Maybe (Array T1)) :=
  traverseIntoPar
    (fun elem idx =>
       awaitThen (f elem idx)
         (fun maybe => map maybe (fun val => (idx, val))))
    (ArrayEntryBuilder T1) elems [] schedule.

Definition traverseEntriesPar {V V1 : Type} (entries : list (string * V))
    (f : V -> string -> nat -> Outcome Reason (Maybe V1))
    (schedule : list nat) : Promise Reason (Maybe (gmap string V1)) :=
  traverseEntriesIntoPar entries f (RecordEntryBuilder V1) ∅ schedule.

Definition allPar {T : Type} (elems : list (Outcome Reason (Maybe T)))
    (schedule : list nat) : Promise Reason (Maybe (Array T)) :=
  traversePar elems (fun elem _ => id elem) schedule.

(** [props] is given by its entries, [Object.entries(props)]. *)
Definition allPropsPar {T : Type}
    (props : list (string * Outcome Reason (Maybe T)))
    (schedule : list nat) : Promise Reason (Maybe (gmap string T)) :=
  traverseEntriesPar props (fun elem _ _ => id elem) schedule.

Definition forEachPar {T T1 : Type} (elems : list T)
    (f : T -> nat -> Outcome Reason (Maybe T1)) (schedule : list nat)
    : Promise Reason (Maybe unit) :=
  traverseIntoPar f (NoOpBuilder T1) elems tt schedule.
End Derived.

End AsyncMaybe.

(** * Properties *)

(** ** Chaining *)

Section TheseChaining.
Import These.
Context {E A B : Type} `{Semigroup E}.

Lemma These_flatMap_First (e : E) (f : A -> These E B) :
  flatMap (First e) f = First e.
Proof. reflexivity. Qed.

Lemma These_flatMap_Second (s : A) (f : A -> These E B) :
  flatMap (Second s) f = f s.
Proof. reflexivity. Qed.

(** C1: what [Both(e, s).flatMap(f)] evaluates to, by the shape of [f(s)]:
    [First(e2)] gives [First(cmb(e, e2))] and [Both(e2, s2)] gives
    [Both(cmb(e, e2), s2)], but [Second(s2)] comes back as it is, because
    [mapFirst] returns a [Second] unchanged: the first value [e] is
    dropped where [Both(e, s2)] is called for. *)
Theorem These_flatMap_Both (e : E) (s : A) (f : A -> These E B) :
  flatMap (Both e s) f =
    match f s with
    | First e2 => First (cmb e e2)
    | Second s2 => Second s2
    | Both e2 s2 => Both (cmb e e2) s2
    end.
Proof. unfold flatMap, mapFirst. destruct (f s); reflexivity. Qed.

Lemma These_flatMap_Both_Second (e : E) (s : A) (s2 : B) :
  flatMap (Both e s) (fun _ => Second s2) = Second s2 /\
  flatMap (Both e s) (fun _ => Second s2) <> Both e s2.
Proof. split; [reflexivity|discriminate]. Qed.
End TheseChaining.

Section EitherChaining.
Import Either.
Context {E T T1 : Type}.

Lemma Either_flatMap_Right (x : T) (f : T -> Either E T1) :
  flatMap (Right x) f = f x.
Proof. reflexivity. Qed.

(** With a callback that has no effect, [flatMap_calls] is [flatMap]. *)
Lemma Either_flatMap_calls_silent (this : Either E T) (f : T -> Either E T1)
    (calls : nat) :
  flatMap_calls this (silent f) calls = (flatMap this f, calls).
Proof. destruct this; reflexivity. Qed.

(** On a success the counting stub is called once. *)
Lemma Either_flatMap_calls_Right (x : T) (f : T -> Either E T1) (calls : nat) :
  flatMap_calls (Right x) (stub f) calls = (f x, S calls).
Proof. reflexivity. Qed.

(** C7: [Left(e).flatMap(f)] is [Left(e)], and [f] is not invoked: whatever
    the effect of the callback, the number of calls recorded before is the
    number recorded after; in particular for the counting stub. *)
Theorem Either_flatMap_Left (e : E) :
  (forall f : T -> Either E T1, flatMap (Left e) f = Left e) /\
  (forall (f : T -> Calls (Either E T1)) (calls : nat),
      flatMap_calls (Left e) f calls = (Left e, calls)) /\
  (forall (f : T -> Either E T1) (calls : nat),
      flatMap_calls (Left e) (stub f) calls = (Left e, calls)).
Proof. repeat split. Qed.
End EitherChaining.

(** ** Combination *)

Section TheseCombination.
Import These.
Context {A B : Type} `{Semigroup A, Semigroup B}.

(** C4: the nine cases of [cmb] on two These values. *)
Theorem These_cmb_table (a b : A) (x y : B) :
  Syntax_cmb (First a) (First b) = First (B := B) (cmb a b) /\
  Syntax_cmb (First a) (Second y) = Both a y /\
  Syntax_cmb (First a) (Both b y) = Both (cmb a b) y /\
  Syntax_cmb (Second x) (First b) = Both b x /\
  Syntax_cmb (Second x) (Second y) = Second (A := A) (cmb x y) /\
  Syntax_cmb (Second x) (Both b y) = Both b (cmb x y) /\
  Syntax_cmb (Both a x) (First b) = Both (cmb a b) x /\
  Syntax_cmb (Both a x) (Second y) = Both a (cmb x y) /\
  Syntax_cmb (Both a x) (Both b y) = Both (cmb a b) (cmb x y).
Proof. repeat split. Qed.
End TheseCombination.

Section Associativity.
Context {E F S : Type} `{Semigroup F, Semigroup S}.
Hypothesis cmb_F_assoc : Assoc (=) (cmb (A := F)).
Hypothesis cmb_S_assoc : Assoc (=) (cmb (A := S)).

Lemma Either_cmb_assoc (a b c : Either.Either E S) :
  cmb (cmb a b) c = cmb a (cmb b c).
Proof using cmb_S_assoc.
  change (cmb (A := Either.Either E S)) with (Either.Syntax_cmb (E := E) (T := S)).
  destruct a as [ea|x], b as [eb|y], c as [ec|z]; try reflexivity.
  cbn. unfold Either.right. f_equal. symmetry. apply cmb_S_assoc.
Qed.

Lemma Maybe_cmb_assoc (a b c : Maybe.Maybe S) :
  cmb (cmb a b) c = cmb a (cmb b c).
Proof using cmb_S_assoc.
  change (cmb (A := Maybe.Maybe S)) with (Maybe.Syntax_cmb (T := S)).
  destruct a as [|x], b as [|y], c as [|z]; try reflexivity.
  cbn. unfold Maybe.just. f_equal. symmetry. apply cmb_S_assoc.
Qed.

Lemma These_cmb_assoc (a b c : These.These F S) :
  cmb (cmb a b) c = cmb a (cmb b c).
Proof using cmb_F_assoc cmb_S_assoc.
  change (cmb (A := These.These F S)) with (These.Syntax_cmb (A := F) (B := S)).
  pose proof cmb_F_assoc as HF. pose proof cmb_S_assoc as HS.
  unfold Assoc in HF, HS.
  destruct a, b, c; cbn; unfold These.first, These.second, These.both;
    rewrite <- ?HF, <- ?HS; reflexivity.
Qed.

(** C6: with associative element combiners, [cmb] is associative on
    Either (over its successes), on Maybe, and on These. *)
Theorem cmb_associative :
  (forall a b c : Either.Either E S, cmb (cmb a b) c = cmb a (cmb b c)) /\
  (forall a b c : Maybe.Maybe S, cmb (cmb a b) c = cmb a (cmb b c)) /\
  (forall a b c : These.These F S, cmb (cmb a b) c = cmb a (cmb b c)).
Proof using cmb_F_assoc cmb_S_assoc.
  split; [|split].
  - apply Either_cmb_assoc.
  - apply Maybe_cmb_assoc.
  - apply These_cmb_assoc.
Qed.
End Associativity.

Lemma cmb_associative_witness :
  cmb (cmb (These.Both 1 2) (These.First 3)) (These.Second 4) =
  cmb (These.Both 1 2) (cmb (These.First 3) (These.Second 4)).
Proof.
  refine (proj2 (proj2 (cmb_associative (E := unit) _ _)) _ _ _);
    intros x y z; unfold cmb, Examples.nat_Semigroup; lia.
Defined.

(** ** Ordering *)

Section Comparison.
Context {A B : Type} `{Ord A, Ord B}.

Lemma These_cmp_Both (a b : A) (x y : B) :
  cmp (These.Both a x) (These.Both b y) =
    match cmp a b with
    | equal => cmp x y
    | o => o
    end.
Proof.
  change (cmp (These.Both a x) (These.Both b y))
    with (Ordering_cmb (cmp a b) (cmp x y)).
  destruct (cmp a b); reflexivity.
Qed.

(** C5: comparison ranks the variants First < Second < Both (These),
    Left < Right (Either) and Nothing < Just (Maybe); values of the same
    variant compare by their payloads, two Both values by their first
    payloads and, when those are equal, by their second payloads. *)
Theorem cmp_by_variant_then_payload (a b : A) (x y : B) :
  (cmp (These.First a) (These.Second y) = less /\
   cmp (These.First a) (These.Both b y) = less /\
   cmp (These.Second x) (These.Both b y) = less /\
   cmp (These.Second x) (These.First b) = greater /\
   cmp (These.Both a x) (These.First b) = greater /\
   cmp (These.Both a x) (These.Second y) = greater /\
   cmp (These.First a : These.These A B) (These.First b) = cmp a b /\
   cmp (These.Second x : These.These A B) (These.Second y) = cmp x y /\
   cmp (These.Both a x) (These.Both b y) =
     match cmp a b with
     | equal => cmp x y
     | o => o
     end) /\
  (cmp (Either.Left a) (Either.Right y) = less /\
   cmp (Either.Right x) (Either.Left b) = greater /\
   cmp (Either.Left a : Either.Either A B) (Either.Left b) = cmp a b /\
   cmp (Either.Right x : Either.Either A B) (Either.Right y) = cmp x y) /\
  (cmp Maybe.Nothing (Maybe.Just y) = less /\
   cmp (Maybe.Just x) Maybe.Nothing = greater /\
   cmp (Maybe.Nothing : Maybe.Maybe B) Maybe.Nothing = equal /\
   cmp (Maybe.Just x) (Maybe.Just y) = cmp x y).
Proof.
  split; [|split]; repeat split; apply These_cmp_Both.
Qed.
End Comparison.

(** ** Generator comprehensions *)

Section LogFacts.
Import Generator.
Context {Ev : Type} `{EqDecision Ev}.

Lemma occurrences_snoc (c e : Ev) (log : list Ev) :
  occurrences c (log ++ [e]) =
    occurrences c log + (if decide (e = c) then 1 else 0).
Proof.
  unfold occurrences. rewrite filter_app, length_app. f_equal.
  rewrite filter_cons, filter_nil. destruct (decide (e = c)); reflexivity.
Qed.

Lemma occurrences_snoc_eq (c : Ev) (log : list Ev) :
  occurrences c (log ++ [c]) = S (occurrences c log).
Proof. rewrite occurrences_snoc, decide_True by reflexivity. lia. Qed.

Lemma occurrences_snoc_ne (c e : Ev) (log : list Ev) :
  e <> c -> occurrences c (log ++ [e]) = occurrences c log.
Proof. intros Hne. rewrite occurrences_snoc, decide_False by assumption. lia. Qed.
End LogFacts.

Section TheseComprehension.
Import Generator These.
Context {Ev E : Type} `{Semigroup E}.

(** One round of the reduction: the loop of [doImpl] on the generator of
    [reduceThese], by the shape of [f(acc, x)]. *)
Lemma doImpl_from_reduceThese_cons {A B : Type} (f : B -> A -> These E B)
    (x : A) (xs : list A) (acc : B) (e : option E) (log : list Ev) :
  doImpl_from (reduceThese_loop f (x :: xs) acc) e log =
    match f acc x with
    | Second acc' => doImpl_from (reduceThese_loop f xs acc') e log
    | Both a acc' =>
        doImpl_from (reduceThese_loop f xs acc')
          (Some match e with Some e => cmb e a | None => a end) log
    | First a =>
        (log, match e with Some e => First (cmb e a) | None => First a end)
    end.
Proof. cbn. destruct (f acc x); reflexivity. Qed.

Lemma doImpl_from_reduceThese_nil {A B : Type} (f : B -> A -> These E B)
    (acc : B) (e : option E) (log : list Ev) :
  doImpl_from (reduceThese_loop f [] acc) e log =
    (log, match e with Some e => Both e acc | None => Second acc end).
Proof. reflexivity. Qed.

(** C3: reducing ["x", "y"] from "" with a reducer that returns
    [both(a, acc + x)] yields [both(cmb(a, a), "xy")]. *)
Theorem reduceThese_both_xy (a : E) :
  reduceThese (Ev := Ev) ["x"; "y"] (fun acc x => both a (acc +:+ x)) "" =
    ([], Both (cmb a a) "xy").
Proof.
  unfold reduceThese, doThese, doImpl.
  rewrite doImpl_from_reduceThese_cons. cbn [both].
  rewrite doImpl_from_reduceThese_cons. cbn [both].
  rewrite doImpl_from_reduceThese_nil. reflexivity.
Qed.

(** The comprehension [const x = yield* both(e, s); return yield* second(s2)]
    keeps the first value that [flatMap] drops. *)
Lemma doImpl_Both_then_Second {A B : Type} (e : E) (s : A) (s2 : B) :
  doImpl (Ev := Ev) (V := A + B)
    (bind (yieldStar (Both e (inl s)))
       (fun _ => bind (yieldStar (Second (inr s2)))
          (fun v => Return v))) =
    ([], Both e (inr s2)).
Proof. reflexivity. Qed.

(** C2: the generator [try { return yield* first(e); } finally { cleanup }]
    under [doImpl]: the loop returns at the First without resuming the
    generator, so the log is empty and the cleanup has not run. *)
Theorem These_doImpl_skips_cleanup {V : Type} (cleanup : Ev) (e : E) :
  doImpl (V := V)
    (tryFinally (bind (yieldStar (First e)) (fun v => Return v))
       (effect cleanup)) =
    ([], First e).
Proof. reflexivity. Qed.
End TheseComprehension.

Section EitherComprehension.
Import Generator Either.
Context {Ev E V TReturn : Type} `{EqDecision Ev}.
Variable undefined : E.

Local Abbreviation Body A := (Gen Ev (Either E V) V (OrHalt TReturn) A).

(** Generator code that does not perform [c] leaves its count alone. *)
Lemma Either_step_from_other (c : Ev) (g : Body Empty_set) :
  ~ performs c g ->
  forall err log,
    occurrences c (step_from g err log).1 = occurrences c log.
Proof.
  induction g as [[]|r|e k IH|y k IH]; intros Hc err log; cbn.
  - reflexivity.
  - rewrite IH by (intros Hk; apply Hc; right; exact Hk).
    apply occurrences_snoc_ne. intros ->. apply Hc. left. reflexivity.
  - destruct y as [val|val]; apply IH; intros Hk; apply Hc; eexists; exact Hk.
Qed.

(** A cleanup registered by [try { body } finally { c }] runs exactly once
    under [step], whether [body] completes, returns, or is halted at a
    yielded Left. *)
Lemma Either_step_from_cleanup_once {A : Type} (c : Ev) (body : Body A)
    (rest : A -> Body Empty_set) :
  ~ performs c body ->
  (forall a, ~ performs c (rest a)) ->
  forall err log,
    occurrences c (step_from (bind (tryFinally body (effect c)) rest) err log).1
    = S (occurrences c log).
Proof.
  intros Hbody Hrest.
  induction body as [a|r|e k IH|y k IH]; intros err log; cbn.
  - rewrite Either_step_from_other by apply Hrest.
    apply occurrences_snoc_eq.
  - destruct r; apply occurrences_snoc_eq.
  - rewrite IH by (intros Hk; apply Hbody; right; exact Hk).
    f_equal. apply occurrences_snoc_ne. intros ->. apply Hbody. left.
    reflexivity.
  - destruct y as [val|val]; apply IH; intros Hk; apply Hbody; eexists;
      exact Hk.
Qed.

(** The generator [try { return yield* left(e); } finally { cleanup }]
    under [step]: the cleanup runs before [step] returns. *)
Lemma Either_step_runs_cleanup (cleanup : Ev) (e : E) :
  step undefined
    (tryFinally (bind (yieldStar (Left e)) (fun v => Return (returned v)))
       (effect cleanup)) =
    ([cleanup], Left (B := V) e).
Proof. reflexivity. Qed.
End EitherComprehension.

Section MaybeComprehension.
Import Generator Maybe.
Context {Ev V TReturn : Type} `{EqDecision Ev}.
Variable undefined : TReturn.

Local Abbreviation Body A := (Gen Ev (Maybe V) V TReturn A).

Lemma Maybe_go_from_other (c : Ev) (g : Body Empty_set) :
  ~ performs c g ->
  forall isHalted log,
    occurrences c (go_from undefined g isHalted log).1 = occurrences c log.
Proof.
  induction g as [[]|r|e k IH|y k IH]; intros Hc isHalted log; cbn.
  - reflexivity.
  - rewrite IH by (intros Hk; apply Hc; right; exact Hk).
    apply occurrences_snoc_ne. intros ->. apply Hc. left. reflexivity.
  - destruct y as [|val]; apply IH; intros Hk; apply Hc; eexists; exact Hk.
Qed.

(** A cleanup registered by [try { body } finally { c }] runs exactly once
    under [go], whether [body] completes, returns, or is halted at a
    yielded Nothing. *)
Lemma Maybe_go_from_cleanup_once {A : Type} (c : Ev) (body : Body A)
    (rest : A -> Body Empty_set) :
  ~ performs c body ->
  (forall a, ~ performs c (rest a)) ->
  forall isHalted log,
    occurrences c
      (go_from undefined (bind (tryFinally body (effect c)) rest)
         isHalted log).1
    = S (occurrences c log).
Proof.
  intros Hbody Hrest.
  induction body as [a|r|e k IH|y k IH]; intros isHalted log; cbn.
  - rewrite Maybe_go_from_other by apply Hrest.
    apply occurrences_snoc_eq.
  - apply occurrences_snoc_eq.
  - rewrite IH by (intros Hk; apply Hbody; right; exact Hk).
    f_equal. apply occurrences_snoc_ne. intros ->. apply Hbody. left.
    reflexivity.
  - destruct y as [|val]; apply IH; intros Hk; apply Hbody; eexists;
      exact Hk.
Qed.

(** Once [isHalted] is set it stays set: the result is Nothing whatever
    the generator does. *)
Lemma Maybe_go_from_halted (g : Body Empty_set) (log : list Ev) :
  (go_from undefined g true log).2 = Nothing.
Proof.
  revert log.
  induction g as [[]|r|e k IH|y k IH]; intros log; cbn.
  - reflexivity.
  - apply IH.
  - destruct y as [|val]; apply IH.
Qed.

Lemma Maybe_go_from_observesNothing (g : Body Empty_set) (isHalted : bool)
    (log : list Ev) :
  observesNothing g = true ->
  (go_from undefined g isHalted log).2 = Nothing.
Proof.
  revert isHalted log.
  induction g as [[]|r|e k IH|y k IH]; intros isHalted log Hobs; cbn in *.
  - discriminate.
  - apply IH, Hobs.
  - destruct y as [|val].
    + apply Maybe_go_from_halted.
    + apply IH, Hobs.
Qed.

(** C10: when the run of [go] observes a yielded Nothing, its result is
    Nothing, whatever the generator does after the forced return. *)
Theorem Maybe_go_Nothing_is_final (gen : Body Empty_set) :
  observesNothing gen = true ->
  (go undefined gen).2 = Nothing.
Proof. apply Maybe_go_from_observesNothing. Qed.
End MaybeComprehension.

Lemma Maybe_go_Nothing_is_final_witness :
  (Maybe.go (Ev := unit) 0
     (Generator.tryFinally
        (Generator.bind (Maybe.yieldStar (V := nat) Maybe.Nothing)
           (fun v => Generator.Return v))
        (Generator.bind (Maybe.yieldStar (Maybe.Just 5))
           (fun _ => Generator.Return 7)))).2 = Maybe.Nothing.
Proof. apply (Maybe_go_Nothing_is_final 0). reflexivity. Defined.

(** The same generator under [Either.step]: the value returned from the
    [finally] block replaces [halt], and the Left that was observed is
    lost. *)
Example Either_step_Left_not_final :
  (Either.step (Ev := unit) (E := nat) 0
     (Generator.tryFinally
        (Generator.bind (Either.yieldStar (V := nat) (Either.Left 1))
           (fun v => Generator.Return (Either.returned v)))
        (Generator.bind (Either.yieldStar (Either.Right 5))
           (fun _ => Generator.Return (Either.returned 7))))).2
  = Either.Right 7.
Proof. reflexivity. Qed.

(** ** Concurrent traversal *)

Section EmptyTraversal.
Import Maybe Builder AsyncMaybe.
Context {Reason : Type}.

Lemma complete_no_reactions {T1 TFinish : Type} (B : Builder T1 TFinish)
    (st : Exec (Reason := Reason) B) (schedule : list nat) :
  reactions B st = [] -> foldl (complete B) st schedule = st.
Proof.
  intros Hnil. induction schedule as [|i schedule IH]; [reflexivity|].
  cbn. unfold complete at 2. rewrite Hnil, lookup_nil. exact IH.
Qed.

Lemma traverseIntoPar_empty {T T1 TFinish : Type}
    (f : T -> nat -> Outcome Reason (Maybe T1)) (B : Builder T1 TFinish)
    (builder : State B) (schedule : list nat) :
  traverseIntoPar f B [] builder schedule = None.
Proof.
  unfold traverseIntoPar, dispatched. cbn [dispatch].
  rewrite complete_no_reactions; reflexivity.
Qed.

(** C9: on an empty input the promise returned by [traverseIntoPar] is
    pending after every schedule, for every callback and builder: no
    callback is registered, so neither [resolve] nor [reject] is called.
    The same holds for [traversePar], [allPar], [allPropsPar] and
    [forEachPar]. *)
Theorem traverseIntoPar_empty_never_settles {T T1 TFinish : Type}
    (f : T -> nat -> Outcome Reason (Maybe T1)) (B : Builder T1 TFinish)
    (builder : State B) (schedule : list nat) :
  traverseIntoPar f B [] builder schedule = None /\
  traversePar [] f schedule = None /\
  allPar (Reason := Reason) (T := T1) [] schedule = None /\
  allPropsPar (Reason := Reason) (T := T1) [] schedule = None /\
  forEachPar [] f schedule = None.
Proof. repeat split; apply traverseIntoPar_empty. Qed.
End EmptyTraversal.

Section ArrayFacts.
Import Builder.
Context {T : Type}.

Lemma Array_set_lookup (idx : nat) (elem : T) (elems : Array T) :
  Array_set idx elem elems !! idx = Some (Some elem).
Proof.
  unfold Array_set. destruct (decide (idx < length elems)) as [Hlt|Hge].
  - apply list_lookup_insert_eq, Hlt.
  - rewrite lookup_app_r by lia.
    rewrite lookup_app_r by (rewrite length_replicate; lia).
    rewrite length_replicate.
    replace (idx - length elems - (idx - length elems)) with 0 by lia.
    reflexivity.
Qed.

(** Storing at [idx] keeps the elements stored at other indices. *)
Lemma Array_set_lookup_other (idx j : nat) (elem x : T) (elems : Array T) :
  j <> idx ->
  elems !! j = Some (Some x) ->
  Array_set idx elem elems !! j = Some (Some x).
Proof.
  intros Hne Hj. unfold Array_set.
  destruct (decide (idx < length elems)) as [Hlt|Hge].
  - rewrite list_lookup_insert_ne by congruence. exact Hj.
  - apply lookup_app_l_Some, Hj.
Qed.

Lemma Array_set_length (idx : nat) (elem : T) (elems : Array T) :
  length (Array_set idx elem elems) = max (length elems) (S idx).
Proof.
  unfold Array_set. destruct (decide (idx < length elems)) as [Hlt|Hge].
  - rewrite length_insert. lia.
  - rewrite !length_app, length_replicate. cbn. lia.
Qed.

Lemma filled_snoc (w : nat -> T) (done : list nat) (i : nat) :
  filled w (done ++ [i]) = Array_set i (w i) (filled w done).
Proof. unfold filled. rewrite foldl_app. reflexivity. Qed.

Lemma filled_lookup (w : nat -> T) (done : list nat) (i : nat) :
  i ∈ done -> filled w done !! i = Some (Some (w i)).
Proof.
  induction done as [|j done IH] using rev_ind; intros Hin.
  - inversion Hin.
  - rewrite filled_snoc. destruct (decide (i = j)) as [->|Hne].
    + apply Array_set_lookup.
    + apply Array_set_lookup_other; [exact Hne|].
      apply IH. apply elem_of_app in Hin as [Hin|Hin]; [exact Hin|].
      apply list_elem_of_singleton in Hin. contradiction.
Qed.

Lemma filled_length (w : nat -> T) (done : list nat) (n : nat) :
  (forall i, i ∈ done -> i < n) -> length (filled w done) <= n.
Proof.
  induction done as [|j done IH] using rev_ind; intros Hlt.
  - cbn. lia.
  - rewrite filled_snoc, Array_set_length.
    assert (j < n) by (apply Hlt, elem_of_app; right; apply list_elem_of_singleton; reflexivity).
    assert (length (filled w done) <= n)
      by (apply IH; intros i Hi; apply Hlt, elem_of_app; left; exact Hi).
    lia.
Qed.

(** Whatever the order, once every index below [n] was added the array is
    [w 0, ..., w (n - 1)]. *)
Lemma filled_permutation (w : nat -> T) (done : list nat) (n : nat) :
  done ≡ₚ seq 0 n ->
  filled w done = (fun i => Some (w i)) <$> seq 0 n.
Proof.
  intros Hperm. apply list_eq. intros i.
  destruct (decide (i < n)) as [Hlt|Hge].
  - rewrite filled_lookup by (rewrite Hperm; apply elem_of_seq; lia).
    rewrite list_lookup_fmap, lookup_seq_lt by exact Hlt. reflexivity.
  - rewrite lookup_ge_None_2.
    + rewrite list_lookup_fmap, lookup_seq_ge by lia. reflexivity.
    + etrans; [apply (filled_length w done n)|lia].
      intros j Hj. rewrite Hperm in Hj. apply elem_of_seq in Hj. lia.
Qed.
End ArrayFacts.

Section Dispatch.
Import Maybe Builder AsyncMaybe.
Context {Reason T T1 TFinish : Type}.
Variable f : T -> nat -> Outcome Reason (Maybe T1).
Variable B : Builder T1 TFinish.

(** The executor's loop registers one callback per element, numbered from
    the value of [remaining] it starts with. *)
Lemma dispatch_spec (elems : list T) (st : Exec B) :
  dispatch f B elems st =
    {| remaining := remaining B st + length elems;
       builder := builder B st;
       promise := promise B st;
       reactions :=
         reactions B st
           ++ imap (fun i elem => Some (f elem (remaining B st + i))) elems |}.
Proof.
  revert st. induction elems as [|elem elems IH]; intros [r b p rs]; cbn.
  - rewrite Nat.add_0_r, app_nil_r. reflexivity.
  - rewrite IH. cbn. f_equal; [lia|].
    rewrite <- app_assoc. cbn. rewrite Nat.add_0_r. do 2 f_equal.
    apply imap_ext. intros i x _. cbn. do 2 f_equal. lia.
Qed.
End Dispatch.

Section IndexOrder.
Import Maybe Builder AsyncMaybe.
Context {Reason T1 : Type}.
Variable w : nat -> T1.
Variable n : nat.
Hypothesis n_pos : 0 < n.

Local Abbreviation B := (ArrayEntryBuilder T1).

(** The callbacks registered for [n] computations that all succeed, the
    [i]-th with the entry [(i, w i)]. *)
Variable rs0 : list (option (Outcome Reason (Maybe (nat * T1)))).
Hypothesis rs0_lookup :
  forall i, i < n -> rs0 !! i = Some (Some (Fulfilled (Just (i, w i)))).

Local Abbreviation st0 :=
  ({| remaining := n; builder := ([] : State B); promise := None;
      reactions := rs0 |}).

(** The state after the callbacks of [done] ran, in that order. *)
Lemma completed_state (done : list nat) :
  NoDup done ->
  (forall i, i ∈ done -> i < n) ->
  let st := foldl (complete B) st0 done in
  remaining B st = n - length done /\
  builder B st = filled w done /\
  (forall i, i ∉ done -> reactions B st !! i = rs0 !! i) /\
  promise B st =
    if decide (length done = n)
    then Some (Fulfilled (Just (filled w done)))
    else None.
Proof using n_pos rs0_lookup.
  induction done as [|i done IH] using rev_ind; intros Hnodup Hlt.
  - cbn. repeat split; [lia|]. rewrite decide_False by lia. reflexivity.
  - apply NoDup_app in Hnodup as (Hnodup & Hfresh & _).
    assert (Hi : i ∉ done).
    { intros Hin. apply (Hfresh i Hin), list_elem_of_singleton. reflexivity. }
    assert (Hin : i < n).
    { apply Hlt, elem_of_app. right. apply list_elem_of_singleton. reflexivity. }
    assert (Hlen : length done < n).
    { assert (Hsub : i :: done ⊆+ seq 0 n).
      { apply NoDup_submseteq.
        - apply NoDup_cons. split; assumption.
        - intros j Hj. apply elem_of_seq. split; [lia|]. cbn.
          apply elem_of_cons in Hj as [->|Hj]; [exact Hin|].
          apply Hlt, elem_of_app. left. exact Hj. }
      apply submseteq_length in Hsub. rewrite length_seq in Hsub.
      cbn in Hsub. lia. }
    destruct IH as (Hrem & Hbld & Hrs & Hpr); [exact Hnodup| |].
    { intros j Hj. apply Hlt, elem_of_app. left. exact Hj. }
    rewrite decide_False in Hpr by lia.
    cbn zeta. rewrite foldl_app. cbn [foldl].
    destruct (foldl (complete B) st0 done) as [r b p rs].
    cbn in Hrem, Hbld, Hrs, Hpr. subst r b p.
    unfold complete. cbn [reactions].
    rewrite (Hrs i Hi), (rs0_lookup i Hin). cbn.
    rewrite length_app, filled_snoc. cbn [length].
    destruct (decide (Init.Nat.pred (n - length done) = 0)) as [Hz|Hnz].
    + cbn. repeat split; [lia| |].
      * intros j Hj. rewrite list_lookup_insert_ne.
        { apply Hrs. intros Hjd. apply Hj, elem_of_app. left. exact Hjd. }
        intros ->. apply Hj, elem_of_app. right.
        apply list_elem_of_singleton. reflexivity.
      * rewrite decide_True by lia. reflexivity.
    + cbn. repeat split; [lia| |].
      * intros j Hj. rewrite list_lookup_insert_ne.
        { apply Hrs. intros Hjd. apply Hj, elem_of_app. left. exact Hjd. }
        intros ->. apply Hj, elem_of_app. right.
        apply list_elem_of_singleton. reflexivity.
      * rewrite decide_False by lia. reflexivity.
Qed.

(** When every callback has run, in whatever order, the promise is
    fulfilled with the array in index order. *)
Lemma completed_all (schedule : list nat) :
  schedule ≡ₚ seq 0 n ->
  promise B (foldl (complete B) st0 schedule) =
    Some (Fulfilled (Just ((fun i => Some (w i)) <$> seq 0 n))).
Proof using n_pos rs0_lookup.
  intros Hperm.
  destruct (completed_state schedule) as (_ & _ & _ & Hpr).
  - rewrite Hperm. apply NoDup_seq.
  - intros i Hi. rewrite Hperm in Hi. apply elem_of_seq in Hi. lia.
  - rewrite Hpr, decide_True.
    + rewrite (filled_permutation w schedule n Hperm). reflexivity.
    + rewrite Hperm. apply length_seq.
Qed.
End IndexOrder.

Section TraversePar.
Import Maybe Builder AsyncMaybe.
Context {Reason T T1 : Type}.

(** C8: when every computation started by [traversePar] succeeds, the
    returned promise is fulfilled with the array of the values in the order
    of their elements, in whatever order the computations complete. *)
Theorem traversePar_index_order (elems : list T) (g : T -> nat -> T1)
    (schedule : list nat) :
  elems <> [] ->
  schedule ≡ₚ seq 0 (length elems) ->
  traversePar (Reason := Reason) elems
    (fun elem idx => Fulfilled (Just (g elem idx))) schedule =
    Some (Fulfilled (Just (imap (fun idx elem => Some (g elem idx)) elems))).
Proof.
  intros Hne Hperm.
  destruct elems as [|elem0 elems']; [contradiction|].
  set (elems := elem0 :: elems') in *.
  set (w := fun i => g (default elem0 (elems !! i)) i).
  assert (Hw : forall i (elem : T), elems !! i = Some elem -> g elem i = w i).
  { intros i elem Hi. unfold w. rewrite Hi. reflexivity. }
  unfold traversePar, traverseIntoPar, dispatched. rewrite dispatch_spec.
  etrans.
  - apply (completed_all w (length elems)); [cbn; lia| |exact Hperm].
    intros i Hi. cbn [remaining reactions app Nat.add].
    rewrite list_lookup_imap.
    destruct (lookup_lt_is_Some_2 elems i Hi) as [elem Helem].
    rewrite Helem. cbn. rewrite (Hw i elem Helem). reflexivity.
  - do 3 f_equal. apply list_eq. intros i.
    rewrite list_lookup_fmap, list_lookup_imap.
    destruct (elems !! i) as [elem|] eqn:Hi.
    + rewrite lookup_seq_lt by (apply lookup_lt_Some in Hi; exact Hi).
      cbn. rewrite (Hw i elem Hi). reflexivity.
    + rewrite lookup_seq_ge by (apply lookup_ge_None in Hi; exact Hi).
      reflexivity.
Qed.
End TraversePar.

Lemma traversePar_index_order_witness :
  AsyncMaybe.traversePar (Reason := unit) [10; 20; 30]
    (fun elem idx => AsyncMaybe.Fulfilled (Maybe.Just (elem + idx))) [2; 0; 1] =
    Some (AsyncMaybe.Fulfilled (Maybe.Just [Some 10; Some 21; Some 32])).
Proof.
  apply (traversePar_index_order [10; 20; 30] (fun elem idx => elem + idx)).
  - discriminate.
  - cbn. etrans; [apply perm_swap|]. apply perm_skip, perm_swap.
Defined.

(** ** Either: laws of the fluent methods *)

Section EitherLaws.
Import Either.
Context {E E1 E2 T T1 T2 : Type}.

(** X1: [flatMap] with [right] is a monad: [right(x).flatMap(f)] is [f(x)],
    [m.flatMap(right)] is [m], and chaining two callbacks one after the
    other is chaining their composition. *)
Theorem Either_flatMap_monad_laws :
  (forall (x : T) (f : T -> Either E T1), flatMap (right x) f = f x) /\
  (forall m : Either E T, flatMap m right = m) /\
  (forall (m : Either E T) (f : T -> Either E T1) (g : T1 -> Either E T2),
      flatMap (flatMap m f) g = flatMap m (fun x => flatMap (f x) g)).
Proof.
  split; [|split].
  - reflexivity.
  - intros [e|x]; reflexivity.
  - intros [e|x] f g; reflexivity.
Qed.

(** X2: [map] and [lmap] preserve identities and compositions, each leaves
    the other side alone, and they commute. *)
Theorem Either_map_lmap_laws (m : Either E T) :
  map m (fun x => x) = m /\
  lmap m (fun e => e) = m /\
  (forall (f : T -> T1) (g : T1 -> T2),
      map (map m f) g = map m (fun x => g (f x))) /\
  (forall (f : E -> E1) (g : E1 -> E2),
      lmap (lmap m f) g = lmap m (fun e => g (f e))) /\
  (forall (f : T -> T1) (g : E -> E1),
      lmap (map m f) g = map (lmap m g) f) /\
  (forall f : T -> T1, isLeft (map m f) = isLeft m) /\
  (forall g : E -> E1, isRight (lmap m g) = isRight m).
Proof. destruct m as [e|x]; repeat split. Qed.

(** X3: [zipWith], [zipFst], [zipSnd] and [cmb] fail with the first Left,
    this before that, and succeed only when both sides do. *)
Theorem Either_zip_first_Left `{Semigroup T} (this that : Either E T)
    (f : T -> T -> T2) :
  match this, that with
  | Left e, _ =>
      zipWith this that f = Left e /\ zipFst this that = Left e /\
      zipSnd this that = Left e /\ Syntax_cmb this that = Left e
  | Right _, Left e =>
      zipWith this that f = Left e /\ zipFst this that = Left e /\
      zipSnd this that = Left e /\ Syntax_cmb this that = Left e
  | Right x, Right y =>
      zipWith this that f = Right (f x y) /\ zipFst this that = Right x /\
      zipSnd this that = Right y /\ Syntax_cmb this that = Right (cmb x y)
  end.
Proof. destruct this as [e|x], that as [e'|y]; repeat split. Qed.
End EitherLaws.

(** ** Either: reducing and collecting *)

Section EitherCollecting.
Import Generator Builder Either.
Context {Ev E : Type}.
Variable undefined : E.

(** Once the accumulator has failed, folding on changes nothing. *)
Lemma Either_foldl_flatMap_Left {T TAcc : Type}
    (accum : TAcc -> T -> Either E TAcc) (vals : list T) (e : E) :
  foldl (fun r val => flatMap r (fun acc => accum acc val)) (Left e) vals
  = Left e.
Proof. induction vals as [|val vals IH]; [reflexivity|exact IH]. Qed.

Lemma Either_step_from_reduce_loop {T TAcc : Type}
    (accum : TAcc -> T -> Either E TAcc) (vals : list T) (acc : TAcc)
    (err : E) (log : list Ev) :
  step_from (reduce_loop accum vals acc) err log =
    (log, foldl (fun r val => flatMap r (fun acc => accum acc val))
            (Right acc) vals).
Proof.
  revert acc err. induction vals as [|val vals IH]; intros acc err; cbn.
  - reflexivity.
  - destruct (accum acc val) as [e|acc']; cbn.
    + rewrite Either_foldl_flatMap_Left. reflexivity.
    + apply IH.
Qed.

(** X4: [reduce] is the left fold of [flatMap] over the elements, started
    from [right(initial)]; the generator performs no effect. *)
Theorem Either_reduce_foldl {T TAcc : Type} (vals : list T)
    (accum : TAcc -> T -> Either E TAcc) (initial : TAcc) :
  reduce (Ev := Ev) undefined vals accum initial =
    ([], foldl (fun r val => flatMap r (fun acc => accum acc val))
           (right initial) vals).
Proof. apply Either_step_from_reduce_loop. Qed.

(** The loop of [collect] on successes: the slots filled so far are
    followed by one hole per remaining element. *)
Lemma Either_step_from_collect_Right {T : Type} (vals done : list T) (err : E)
    (log : list Ev) :
  step_from
    (collect_loop (Right <$> vals) (length done)
       ((Some <$> done) ++ replicate (length vals) None)) err log =
    (log, Right (Some <$> (done ++ vals))).
Proof.
  revert done. induction vals as [|val vals IH]; intros done; cbn.
  - rewrite !app_nil_r. reflexivity.
  - unfold Array_set. rewrite decide_True.
    2:{ rewrite length_app, length_fmap. cbn. lia. }
    rewrite insert_app_r_alt by (rewrite length_fmap; lia).
    rewrite length_fmap, Nat.sub_diag. cbn [insert list_insert].
    specialize (IH (done ++ [val])).
    rewrite length_app, Nat.add_1_r, fmap_app, <- !app_assoc in IH.
    cbn in IH. exact IH.
Qed.

Lemma Either_step_from_collect_Left {T : Type} (vals : list T) (e : E)
    (rest : list (Either E T)) (idx : nat) (results : Array T) (err : E)
    (log : list Ev) :
  step_from (collect_loop ((Right <$> vals) ++ Left e :: rest) idx results)
    err log = (log, Left e).
Proof.
  revert idx results. induction vals as [|val vals IH]; intros idx results.
  - reflexivity.
  - cbn. apply IH.
Qed.

(** X5: [collect] of successes succeeds with their values, in the order of
    the elements and without holes; of no element, with the empty array. *)
Theorem Either_collect_all_Right {T : Type} (vals : list T) :
  collect (Ev := Ev) undefined (Right <$> vals) = ([], Right (Some <$> vals)).
Proof.
  unfold collect, go, step. rewrite length_fmap.
  apply (Either_step_from_collect_Right vals []).
Qed.

(** X6: [collect] fails with the first Left, whatever follows it. *)
Theorem Either_collect_first_Left {T : Type} (vals : list T) (e : E)
    (rest : list (Either E T)) :
  collect (Ev := Ev) undefined ((Right <$> vals) ++ Left e :: rest) =
    ([], Left e).
Proof. apply Either_step_from_collect_Left. Qed.
End EitherCollecting.

(** ** Maybe: laws of the fluent methods *)

Section MaybeLaws.
Import Maybe.
Context {T T1 T2 : Type}.

(** X7: [andThen] with [just] is a monad, and [map] preserves identities
    and compositions. *)
Theorem Maybe_andThen_monad_laws :
  (forall (x : T) (f : T -> Maybe T1), andThen (just x) f = f x) /\
  (forall m : Maybe T, andThen m just = m) /\
  (forall (m : Maybe T) (f : T -> Maybe T1) (g : T1 -> Maybe T2),
      andThen (andThen m f) g = andThen m (fun x => andThen (f x) g)) /\
  (forall m : Maybe T, map m (fun x => x) = m) /\
  (forall (m : Maybe T) (f : T -> T1) (g : T1 -> T2),
      map (map m f) g = map m (fun x => g (f x))).
Proof.
  repeat split; try reflexivity; intros [|x]; reflexivity.
Qed.

(** X8: [nothing] is a left and a right identity of [cmb]: combining with
    an absent value returns the other value as it is. *)
Theorem Maybe_cmb_nothing_identity `{Semigroup T} (m : Maybe T) :
  Syntax_cmb nothing m = m /\ Syntax_cmb m nothing = m.
Proof. destruct m; split; reflexivity. Qed.

(** X9: for a payload type that holds neither [null] nor [undefined],
    [fromNullish] after [toNullish] gives the Maybe back; [toNullish] after
    [fromNullish] gives the value back, except that [null] comes back as
    [undefined]. *)
Theorem Maybe_nullish_round_trip :
  (forall m : Maybe T, fromNullish (toNullish m) = m) /\
  (forall val : Nullish T,
      toNullish (fromNullish val) =
        match val with
        | null => undefined
        | _ => val
        end).
Proof. split; [intros [|x]|intros [| |x]]; reflexivity. Qed.

(** X10: [filter] keeps a value exactly when it is present and satisfies the
    predicate; filtering twice is filtering by both predicates. *)
Theorem Maybe_filter_spec (m : Maybe T) (f g : T -> bool) :
  (forall x, filter m f = Just x <-> m = Just x /\ f x = true) /\
  (filter m f = Nothing <-> m = Nothing \/ exists x, m = Just x /\ f x = false) /\
  filter (filter m f) g = filter m (fun x => f x && g x).
Proof.
  unfold filter, just, nothing.
  split; [|split].
  - intros x. destruct m as [|y]; cbn.
    + split; [discriminate|intros [? _]; discriminate].
    + destruct (f y) eqn:Hf; split.
      * intros [= ->]. split; [reflexivity|exact Hf].
      * intros [[= ->] _]. reflexivity.
      * discriminate.
      * intros [[= ->] Hx]. congruence.
  - destruct m as [|y]; cbn.
    + split; [intros _; left; reflexivity|reflexivity].
    + destruct (f y) eqn:Hf; split.
      * discriminate.
      * intros [?|(x & [= ->] & Hx)]; congruence.
      * intros _. right. exists y. split; [reflexivity|exact Hf].
      * reflexivity.
  - destruct m as [|y]; cbn; [reflexivity|].
    destruct (f y); reflexivity.
Qed.

(** X11: [or] returns the first present value: it is associative with
    [nothing] as identity; [and] returns that only when this is present. *)
Theorem Maybe_or_and_laws (a b c : Maybe T) (d : Maybe T1) :
  or nothing a = a /\
  or a nothing = a /\
  or (or a b) c = or a (or b c) /\
  (isJust (or a b) = isJust a || isJust b) /\
  (isJust (and a d) = isJust a && isJust d) /\
  and a d = (if isJust a then d else Nothing).
Proof. destruct a, b, c, d; repeat split. Qed.
End MaybeLaws.

(** ** Maybe: reducing and traversing *)

Section MaybeCollecting.
Import Generator Builder Maybe.
Context {Ev : Type}.

Lemma Maybe_foldl_andThen_Nothing {T TAcc : Type}
    (accum : TAcc -> T -> Maybe TAcc) (elems : list T) :
  foldl (fun r val => andThen r (fun acc => accum acc val)) Nothing elems
  = Nothing.
Proof. induction elems as [|val elems IH]; [reflexivity|exact IH]. Qed.

Lemma Maybe_go_from_reduce_loop {T TAcc : Type} (undef : TAcc)
    (accum : TAcc -> T -> Maybe TAcc) (elems : list T) (acc : TAcc)
    (log : list Ev) :
  go_from undef (reduce_loop accum elems acc) false log =
    (log, foldl (fun r val => andThen r (fun acc => accum acc val))
            (Just acc) elems).
Proof.
  revert acc. induction elems as [|val elems IH]; intros acc; cbn.
  - reflexivity.
  - destruct (accum acc val) as [|acc']; cbn.
    + rewrite Maybe_foldl_andThen_Nothing. reflexivity.
    + apply IH.
Qed.

(** X12: [reduce] is the left fold of [andThen] over the elements, started
    from [just(initial)]. *)
Theorem Maybe_reduce_foldl {T TAcc : Type} (undef : TAcc) (elems : list T)
    (accum : TAcc -> T -> Maybe TAcc) (initial : TAcc) :
  reduce (Ev := Ev) undef elems accum initial =
    ([], foldl (fun r val => andThen r (fun acc => accum acc val))
           (just initial) elems).
Proof. apply Maybe_go_from_reduce_loop. Qed.

Section TraverseInto.
Context {T T1 TFinish : Type}.
Variable undef : TFinish.
Variable f : T -> nat -> Maybe T1.
Variable B : Builder T1 TFinish.

(** The loop of [traverseInto] while every element maps to a present
    value: the values are added in the order of the elements. *)
Lemma Maybe_go_from_traverseInto_Just (g : T -> nat -> T1) (elems : list T)
    (idx : nat) (builder : State B) (log : list Ev) :
  (forall i elem, elems !! i = Some elem -> f elem (idx + i) = Just (g elem (idx + i))) ->
  go_from undef (traverseInto_loop f B elems idx builder) false log =
    (log, Just (finish B
       (foldl (fun b val => add B val b) builder
          (imap (fun i elem => g elem (idx + i)) elems)))).
Proof.
  revert idx builder.
  induction elems as [|elem elems IH]; intros idx builder Hf; cbn.
  - reflexivity.
  - pose proof (Hf 0 elem eq_refl) as H0. rewrite Nat.add_0_r in H0.
    rewrite H0. cbn. rewrite Nat.add_0_r. rewrite IH.
    + do 4 f_equal. apply imap_ext. intros i x _. cbn. f_equal. lia.
    + intros i x Hi. specialize (Hf (S i) x Hi).
      replace (S idx + i) with (idx + S i) by lia. exact Hf.
Qed.

(** The loop of [traverseInto] when some element maps to an absent
    value. *)
Lemma Maybe_go_from_traverseInto_Nothing (elems : list T) (idx : nat)
    (builder : State B) (log : list Ev) (i : nat) (elem : T) :
  elems !! i = Some elem ->
  f elem (idx + i) = Nothing ->
  go_from undef (traverseInto_loop f B elems idx builder) false log =
    (log, Nothing).
Proof.
  revert idx builder i.
  induction elems as [|x elems IH]; intros idx builder i Hi Hf; [discriminate|].
  cbn. destruct (f x idx) as [|val] eqn:Hx; cbn; [reflexivity|].
  destruct i as [|i]; cbn in Hi.
  - injection Hi as ->. rewrite Nat.add_0_r in Hf. congruence.
  - apply (IH (S idx) _ i Hi). replace (S idx + i) with (idx + S i) by lia.
    exact Hf.
Qed.
End TraverseInto.

(** X13: when the callback returns a present value for every element and
    its index, [traverseInto] adds these values to the builder in the order
    of the elements and succeeds with what the builder finishes with. *)
Theorem Maybe_traverseInto_all_Just {T T1 TFinish : Type} (undef : TFinish)
    (elems : list T) (f : T -> nat -> Maybe T1) (g : T -> nat -> T1)
    (B : Builder T1 TFinish) (builder : State B) :
  (forall i elem, elems !! i = Some elem -> f elem i = Just (g elem i)) ->
  traverseInto (Ev := Ev) undef elems f B builder =
    ([], Just (finish B
       (foldl (fun b val => add B val b) builder
          (imap (fun i elem => g elem i) elems)))).
Proof.
  intros Hf. unfold traverseInto, go.
  apply (Maybe_go_from_traverseInto_Just undef f B g elems 0). exact Hf.
Qed.

(** X14: when the callback returns an absent value for some element and its
    index, [traverseInto] returns Nothing. *)
Theorem Maybe_traverseInto_some_Nothing {T T1 TFinish : Type}
    (undef : TFinish) (elems : list T) (f : T -> nat -> Maybe T1)
    (B : Builder T1 TFinish) (builder : State B) (i : nat) (elem : T) :
  elems !! i = Some elem ->
  f elem i = Nothing ->
  traverseInto (Ev := Ev) undef elems f B builder = ([], Nothing).
Proof.
  intros Hi Hf. unfold traverseInto, go.
  apply (Maybe_go_from_traverseInto_Nothing undef f B elems 0 builder [] i elem Hi).
  exact Hf.
Qed.
End MaybeCollecting.

Lemma Maybe_traverseInto_all_Just_witness :
  Maybe.traverseInto (Ev := unit) 0 [1; 2; 3]
    (fun elem idx => Maybe.Just (elem + idx))
    {| Builder.State := nat;
       Builder.add := fun val total => total + val;
       Builder.finish := fun total => total |} 0
  = ([], Maybe.Just 9).
Proof.
  apply Maybe_traverseInto_all_Just with (g := fun elem idx => elem + idx).
  intros i elem _. reflexivity.
Defined.

Lemma Maybe_traverseInto_some_Nothing_witness :
  Maybe.traverseInto (Ev := unit) 0 [1; 2; 3]
    (fun elem idx => if Nat.eqb idx 1 then Maybe.Nothing else Maybe.Just elem)
    {| Builder.State := nat;
       Builder.add := fun val total => total + val;
       Builder.finish := fun total => total |} 0
  = ([], Maybe.Nothing).
Proof.
  apply Maybe_traverseInto_some_Nothing with (i := 1) (elem := 2); reflexivity.
Defined.

(** ** Equality and ordering of the containers *)

Lemma nat_LawfulEq : LawfulEq nat.
Proof.
  split; unfold eq, Examples.nat_Eq.
  - apply Nat.eqb_refl.
  - apply Nat.eqb_sym.
  - intros x y z Hxy%Nat.eqb_eq Hyz%Nat.eqb_eq. apply Nat.eqb_eq. congruence.
Qed.

Lemma nat_LawfulOrd : LawfulOrd nat.
Proof.
  split; unfold cmp, eq, Examples.nat_Ord, Examples.nat_Eq.
  - intros x y. rewrite Nat.eqb_eq.
    destruct (Nat.compare_spec x y); split; intros; try discriminate;
      try reflexivity; lia.
  - intros x y.
    destruct (Nat.compare_spec x y), (Nat.compare_spec y x); split; intros;
      try discriminate; try reflexivity; lia.
  - intros x y z.
    destruct (Nat.compare_spec x y), (Nat.compare_spec y z),
      (Nat.compare_spec x z); intros; try discriminate; try reflexivity; lia.
Qed.

Section ContainerEq.
Context {A B : Type} `{Eq A, Eq B}.
Hypothesis A_lawful : LawfulEq A.
Hypothesis B_lawful : LawfulEq B.

Lemma Either_LawfulEq : LawfulEq (Either.Either A B).
Proof using A_lawful B_lawful.
  split.
  - intros [a|x]; cbn; apply eq_reflexive.
  - intros [a|x] [b|y]; cbn; try reflexivity; apply eq_symmetric.
  - intros [a|x] [b|y] [c|z]; cbn; try discriminate; apply eq_transitive.
Qed.

Lemma Maybe_LawfulEq : LawfulEq (Maybe.Maybe B).
Proof using B_lawful.
  split.
  - intros [|x]; cbn; [reflexivity|apply eq_reflexive].
  - intros [|x] [|y]; cbn; try reflexivity; apply eq_symmetric.
  - intros [|x] [|y] [|z]; cbn; try discriminate; try reflexivity.
    apply eq_transitive.
Qed.

Lemma These_LawfulEq : LawfulEq (These.These A B).
Proof using A_lawful B_lawful.
  split.
  - intros [a|x|a x]; cbn; rewrite ?eq_reflexive; reflexivity.
  - intros [a|x|a x] [b|y|b y]; cbn; try reflexivity.
    + apply eq_symmetric.
    + apply eq_symmetric.
    + rewrite (eq_symmetric a b), (eq_symmetric x y). reflexivity.
  - intros [a|x|a x] [b|y|b y] [c|z|c z]; cbn; try discriminate.
    + apply eq_transitive.
    + apply eq_transitive.
    + intros [Hab Hxy]%andb_true_iff [Hbc Hyz]%andb_true_iff.
      apply andb_true_iff. split; eapply eq_transitive; eassumption.
Qed.

(** X15: when [eq] is an equivalence relation on the payloads, [eq] is an
    equivalence relation on Either, on Maybe and on These. *)
Theorem containers_LawfulEq :
  LawfulEq (Either.Either A B) /\
  LawfulEq (Maybe.Maybe B) /\
  LawfulEq (These.These A B).
Proof using A_lawful B_lawful.
  split; [|split].
  - apply Either_LawfulEq.
  - apply Maybe_LawfulEq.
  - apply These_LawfulEq.
Qed.
End ContainerEq.

Lemma containers_LawfulEq_witness :
  LawfulEq (Either.Either nat nat) /\
  LawfulEq (Maybe.Maybe nat) /\
  LawfulEq (These.These nat nat).
Proof. apply containers_LawfulEq; apply nat_LawfulEq. Defined.

Section ContainerOrd.
Context {A B : Type} `{Eq A, Ord A, Eq B, Ord B}.
Hypothesis A_lawful : LawfulOrd A.
Hypothesis B_lawful : LawfulOrd B.

Lemma Either_LawfulOrd : LawfulOrd (Either.Either A B).
Proof using A_lawful B_lawful.
  split.
  - intros [a|x] [b|y]; cbn; try (split; discriminate); apply cmp_equal_eq.
  - intros [a|x] [b|y]; cbn; try (split; discriminate);
      try (split; reflexivity); apply cmp_less_greater.
  - intros [a|x] [b|y] [c|z]; cbn; try discriminate; try reflexivity;
      apply cmp_less_transitive.
Qed.

Lemma Maybe_LawfulOrd : LawfulOrd (Maybe.Maybe B).
Proof using B_lawful.
  split.
  - intros [|x] [|y]; cbn; try (split; discriminate);
      try (split; reflexivity); apply cmp_equal_eq.
  - intros [|x] [|y]; cbn; try (split; discriminate);
      try (split; reflexivity); apply cmp_less_greater.
  - intros [|x] [|y] [|z]; cbn; try discriminate; try reflexivity;
      apply cmp_less_transitive.
Qed.

(** X16: when [cmp] on the payloads agrees with [eq], mirrors less and
    greater and is transitive, so does [cmp] on Either and on Maybe. *)
Theorem containers_LawfulOrd :
  LawfulOrd (Either.Either A B) /\ LawfulOrd (Maybe.Maybe B).
Proof using A_lawful B_lawful.
  split.
  - apply Either_LawfulOrd.
  - apply Maybe_LawfulOrd.
Qed.
End ContainerOrd.

Lemma containers_LawfulOrd_witness :
  LawfulOrd (Either.Either nat nat) /\ LawfulOrd (Maybe.Maybe nat).
Proof. apply containers_LawfulOrd; apply nat_LawfulOrd. Defined.

(** ** These: mapping, reducing and zipping *)

Section TheseMapping.
Import These.
Context {A B C D C1 D1 : Type}.

(** X17: [map] and [mapFirst] preserve identities and compositions, and
    [bimap] is [map] and [mapFirst] in either order. *)
Theorem These_bimap_laws (t : These A B) (f : A -> C) (f' : C -> C1)
    (g : B -> D) (g' : D -> D1) :
  map t (fun x => x) = t /\
  mapFirst t (fun a => a) = t /\
  map (map t g) g' = map t (fun x => g' (g x)) /\
  mapFirst (mapFirst t f) f' = mapFirst t (fun a => f' (f a)) /\
  bimap t f g = mapFirst (map t g) f /\
  bimap t f g = map (mapFirst t f) g /\
  bimap (bimap t f g) f' g' = bimap t (fun a => f' (f a)) (fun x => g' (g x)).
Proof. destruct t; repeat split. Qed.
End TheseMapping.

Section TheseAccumulation.
Import Generator Builder These.
Context {Ev E : Type} `{Semigroup E}.

(** What the accumulator [e] of [doImpl] makes of the result [r] of the
    rest of the comprehension when [cmb] is associative. *)
Local Abbreviation prefixed e r :=
  (match r with
   | First b => First (cmb e b)
   | Second y => Both e y
   | Both b y => Both (cmb e b) y
   end).

Lemma doImpl_from_accumulated {V A : Type} :
  Assoc (=) (cmb (A := E)) ->
  forall (g : Generator Ev (These E V * Uid) V A) (e : E) (log : list Ev),
    doImpl_from g (Some e) log =
      ((doImpl_from g None log).1, prefixed e (doImpl_from g None log).2).
Proof.
  intros Hassoc g.
  induction g as [[]|r|ev k IH|[t u] k IH]; intros e log; cbn.
  - reflexivity.
  - apply IH.
  - destruct t as [a|x|a x]; cbn.
    + reflexivity.
    + apply IH.
    + rewrite (IH (Next x) (cmb e a)), (IH (Next x) a). f_equal.
      destruct (doImpl_from (k (Next x)) None log).2; cbn;
        rewrite <- ?(Hassoc e a); reflexivity.
Qed.

(** X18: with an associative [cmb], a comprehension that starts with
    [yield* t] is [t] chained with the rest: a First ends it, a Second
    hands its value on, and a Both hands its second value on and combines
    its first value to the left of the first value of the rest. *)
Theorem These_doImpl_yieldStar_bind {V A : Type} (t : These E V)
    (k : V -> Generator Ev (These E V * Uid) V A) :
  Assoc (=) (cmb (A := E)) ->
  (doImpl (bind (yieldStar t) k)).2 =
    match t with
    | First a => First a
    | Second v => (doImpl (k v)).2
    | Both a v => prefixed a (doImpl (k v)).2
    end.
Proof.
  intros Hassoc. destruct t as [a|v|a v]; cbn; try reflexivity.
  unfold doImpl. rewrite (doImpl_from_accumulated Hassoc). reflexivity.
Qed.

(** The loop of [doImpl] on the generator of [reduceThese] when the reducer
    returns a Both each time. *)
Lemma doImpl_from_reduceThese_Both {A B : Type} (a : A -> E) (h : B -> A -> B)
    (xs : list A) (acc : B) (e : E) (log : list Ev) :
  doImpl_from (reduceThese_loop (fun acc x => both (a x) (h acc x)) xs acc)
    (Some e) log =
    (log, Both (foldl cmb e (a <$> xs)) (foldl h acc xs)).
Proof.
  revert acc e. induction xs as [|x xs IH]; intros acc e; cbn.
  - reflexivity.
  - apply IH.
Qed.

Lemma doImpl_from_reduceThese_Second {A B : Type} (h : B -> A -> B)
    (xs : list A) (acc : B) (log : list Ev) :
  doImpl_from
    (reduceThese_loop (E := E) (fun acc x => second (h acc x)) xs acc)
    None log =
    (log, Second (foldl h acc xs)).
Proof.
  revert acc. induction xs as [|x xs IH]; intros acc; cbn.
  - reflexivity.
  - apply IH.
Qed.

(** X19: [reduceThese] with a reducer that always returns a Second is the
    plain left fold, also on no element; with a reducer that always returns
    a Both it is the left fold paired with the first values combined from
    left to right. *)
Theorem These_reduceThese_folds {A B : Type} (a : A -> E) (h : B -> A -> B)
    (x : A) (xs : list A) (z : B) :
  reduceThese (Ev := Ev) (E := E) xs (fun acc x => second (h acc x)) z =
    ([], Second (foldl h z xs)) /\
  reduceThese (Ev := Ev) (x :: xs) (fun acc x => both (a x) (h acc x)) z =
    ([], Both (foldl cmb (a x) (a <$> xs)) (foldl h z (x :: xs))).
Proof.
  split.
  - apply doImpl_from_reduceThese_Second.
  - unfold reduceThese, doThese, doImpl. cbn.
    apply doImpl_from_reduceThese_Both.
Qed.

(** The loop of [doImpl] on the generator of [zipThese] over elements none
    of which is a First, given by their first value, if any, and their
    second value. *)
Lemma doImpl_from_zipThese_loop {A : Type} (ps : list (option E * A))
    (done : list A) (e : option E) (log : list Ev) :
  doImpl_from
    (zipThese_loop
       ((fun p => match p.1 with Some a => Both a p.2 | None => Second p.2 end)
          <$> ps)
       (length done) ((Some <$> done) ++ replicate (length ps) None)) e log =
    (log,
     match
       foldl (fun e p =>
                match p.1 with
                | Some a => Some match e with Some e => cmb e a | None => a end
                | None => e
                end) e ps
     with
     | Some e => Both e (Some <$> (done ++ ps.*2))
     | None => Second (Some <$> (done ++ ps.*2))
     end).
Proof.
  revert done e. induction ps as [|[o v] ps IH]; intros done e.
  - cbn. rewrite !app_nil_r. destruct e; reflexivity.
  - assert (Hset : Array_set (length done) v
                     ((Some <$> done) ++ replicate (length ((o, v) :: ps)) None)
                   = (Some <$> (done ++ [v])) ++ replicate (length ps) None).
    { unfold Array_set. rewrite decide_True.
      2:{ rewrite length_app, length_fmap. cbn. lia. }
      rewrite insert_app_r_alt by (rewrite length_fmap; lia).
      rewrite length_fmap, Nat.sub_diag, fmap_app, <- app_assoc. reflexivity. }
    specialize (IH (done ++ [v])).
    rewrite length_app, Nat.add_1_r in IH.
    destruct o as [a|]; cbn [fmap list_fmap fst snd]; cbn [zipThese_loop];
      cbn [bind yieldStar yield doImpl_from fst]; rewrite Hset, IH;
      cbn [foldl fst snd]; rewrite <- !app_assoc; reflexivity.
Qed.

Lemma foldl_first_values_None {A : Type} (vals : list A) (e : option E) :
  foldl (fun e (p : option E * A) =>
           match p.1 with
           | Some a => Some match e with Some e => cmb e a | None => a end
           | None => e
           end) e ((fun v => (None, v)) <$> vals) = e.
Proof. revert e. induction vals as [|v vals IH]; intros e; [reflexivity|apply IH]. Qed.

Lemma foldl_first_values_Some {A : Type} (ps : list (E * A)) (e : E) :
  foldl (fun e (p : option E * A) =>
           match p.1 with
           | Some a => Some match e with Some e => cmb e a | None => a end
           | None => e
           end) (Some e) ((fun q : E * A => (Some q.1, q.2)) <$> ps)
  = Some (foldl cmb e ps.*1).
Proof. revert e. induction ps as [|q ps IH]; intros e; [reflexivity|apply IH]. Qed.

(** X20: [zipThese] of Second values is the Second of their values, and of
    Both values the Both of their first values combined from left to right
    and of their second values; the values keep the order of the elements
    and the array has no holes. *)
Theorem These_zipThese_values {A : Type} (vals : list A) (p : E * A)
    (ps : list (E * A)) :
  zipThese (Ev := Ev) (E := E) (Second <$> vals) = ([], Second (Some <$> vals)) /\
  zipThese (Ev := Ev) ((fun p => Both p.1 p.2) <$> (p :: ps)) =
    ([], Both (foldl cmb p.1 ps.*1) (Some <$> (p :: ps).*2)).
Proof.
  split.
  - pose proof (doImpl_from_zipThese_loop ((fun v => (None, v)) <$> vals) []
                  None []) as Hloop.
    rewrite foldl_first_values_None in Hloop.
    rewrite <- !list_fmap_compose, length_fmap in Hloop. cbn in Hloop.
    rewrite list_fmap_id in Hloop.
    unfold zipThese, doThese, doImpl. rewrite length_fmap. exact Hloop.
  - pose proof (doImpl_from_zipThese_loop
                  ((fun q : E * A => (Some q.1, q.2)) <$> (p :: ps)) [] None [])
      as Hloop.
    cbn [fmap list_fmap foldl fst snd] in Hloop.
    rewrite foldl_first_values_Some in Hloop.
    cbn [length] in Hloop.
    rewrite <- !list_fmap_compose, length_fmap in Hloop.
    unfold zipThese, doThese, doImpl. rewrite length_fmap. exact Hloop.
Qed.
End TheseAccumulation.

Lemma These_doImpl_yieldStar_bind_witness :
  (These.doImpl (Ev := unit)
     (Generator.bind (These.yieldStar (These.Both 1 10))
        (fun v => Generator.bind (These.yieldStar (These.Both 2 (v + 1)))
           (fun w => Generator.Return w)))).2
  = These.Both 3 11.
Proof.
  rewrite These_doImpl_yieldStar_bind.
  - reflexivity.
  - intros x y z. unfold cmb, Examples.nat_Semigroup. lia.
Defined.

Section TheseTraverseZip.
Import Generator Builder These.
Context {Ev E : Type} `{Semigroup E}.

Lemma doImpl_from_zipThese_traverseThese {A B : Type} (f : A -> These E B)
    (xs : list A) (done : list B) (e : option E) (log : list Ev) :
  doImpl_from
    (zipThese_loop (f <$> xs) (length done)
       ((Some <$> done) ++ replicate (length xs) None)) e log =
    ((doImpl_from (traverseThese_loop f xs done) e log).1,
     map (doImpl_from (traverseThese_loop f xs done) e log).2 (fmap Some)).
Proof.
  revert done e. induction xs as [|x xs IH]; intros done e.
  - cbn. rewrite app_nil_r. destruct e; reflexivity.
  - assert (Hset : forall v : B,
               Array_set (length done) v
                 ((Some <$> done) ++ replicate (length (x :: xs)) None)
               = (Some <$> (done ++ [v])) ++ replicate (length xs) None).
    { intros v. unfold Array_set. rewrite decide_True.
      2:{ rewrite length_app, length_fmap. cbn. lia. }
      rewrite insert_app_r_alt by (rewrite length_fmap; lia).
      rewrite length_fmap, Nat.sub_diag, fmap_app, <- app_assoc. reflexivity. }
    cbn [fmap list_fmap zipThese_loop traverseThese_loop].
    cbn [bind yieldStar yield doImpl_from fst].
    destruct (f x) as [a|v|a v].
    + destruct e; reflexivity.
    + rewrite Hset. specialize (IH (done ++ [v]) e).
      rewrite length_app, Nat.add_1_r in IH. exact IH.
    + rewrite Hset.
      specialize (IH (done ++ [v])
                    (Some match e with Some e => cmb e a | None => a end)).
      rewrite length_app, Nat.add_1_r in IH. exact IH.
Qed.

(** X21: zipping the images of the elements is traversing the elements:
    [zipThese(xs.map(f))] and [traverseThese(xs, f)] agree, for every
    callback and whether or not the evaluation stops at a First. *)
Theorem These_zipThese_traverseThese {A B : Type} (f : A -> These E B)
    (xs : list A) :
  zipThese (Ev := Ev) (f <$> xs) =
    ((traverseThese (Ev := Ev) xs f).1,
     map (traverseThese (Ev := Ev) xs f).2 (fmap Some)).
Proof.
  unfold zipThese, traverseThese, doThese, doImpl. rewrite length_fmap.
  apply (doImpl_from_zipThese_traverseThese f xs []).
Qed.
End TheseTraverseZip.

(** ** Concurrent traversal with any builder *)

Section ParallelRun.
Import Builder AsyncMaybe.
Context {Reason T1 TFinish : Type}.
Variable B : Builder T1 TFinish.

Local Abbreviation pending rs := (length (base.filter is_Some rs)).

Lemma pending_insert_None {X : Type} (rs : list (option X)) (j : nat) (x : X) :
  rs !! j = Some (Some x) ->
  pending (<[j := None]> rs) = pred (pending rs).
Proof.
  revert j. induction rs as [|r rs IH]; intros j Hj; [discriminate|].
  destruct j as [|j]; cbn in Hj.
  - injection Hj as ->. change (<[0 := None]> (Some x :: rs)) with (@None X :: rs).
    rewrite filter_cons_False by (intros [? ?]; discriminate).
    rewrite filter_cons_True by (eexists; reflexivity). reflexivity.
  - change (<[S j := None]> (r :: rs)) with (r :: <[j := None]> rs).
    specialize (IH j Hj).
    assert (Hpos : 0 < pending rs).
    { apply list_elem_of_lookup_2 in Hj.
      assert (Hin : Some x ∈ base.filter is_Some rs)
        by (apply list_elem_of_filter; split; [eexists; reflexivity|exact Hj]).
      destruct (base.filter is_Some rs); [inversion Hin|cbn; lia]. }
    destruct r as [y|].
    + rewrite !filter_cons_True by (eexists; reflexivity). cbn [length].
      rewrite IH. destruct (pending rs); [lia|reflexivity].
    + rewrite !filter_cons_False by (intros [? ?]; discriminate). exact IH.
Qed.

Lemma pending_positive {X : Type} (rs : list (option X)) (i : nat) (x : X) :
  rs !! i = Some (Some x) -> 0 < pending rs.
Proof.
  intros Hi%list_elem_of_lookup_2.
  assert (Hin : Some x ∈ base.filter is_Some rs)
    by (apply list_elem_of_filter; split; [eexists; reflexivity|exact Hi]).
  destruct (base.filter is_Some rs); [inversion Hin|cbn; lia].
Qed.

Lemma pending_all_Some {X Y : Type} (h : nat -> Y -> X) (ys : list Y) :
  pending (imap (fun i y => Some (h i y)) ys) = length ys.
Proof.
  revert h. induction ys as [|y ys IH]; intros h; [reflexivity|].
  cbn [imap]. rewrite filter_cons_True by (eexists; reflexivity).
  cbn. f_equal. apply (IH (fun i => h (S i))).
Qed.

(** A settled promise stays as it is, whatever completes later. *)
Lemma complete_settled (st : Exec (Reason := Reason) B) (i : nat)
    (o : Outcome Reason (Maybe.Maybe TFinish)) :
  promise B st = Some o -> promise B (complete B st i) = Some o.
Proof.
  intros Hp. unfold complete.
  destruct (reactions B st !! i) as [[[m|reason]|]|]; try exact Hp.
  - destruct m as [|val]; unfold onFulfilled, resolve; cbn.
    + rewrite Hp. cbn. congruence.
    + destruct (decide _); cbn; rewrite ?Hp; cbn; congruence.
  - unfold reject. cbn. rewrite Hp. cbn. congruence.
Qed.

Lemma run_settled (schedule : list nat) (st : Exec (Reason := Reason) B)
    (o : Outcome Reason (Maybe.Maybe TFinish)) :
  promise B st = Some o -> promise B (foldl (complete B) st schedule) = Some o.
Proof.
  revert st. induction schedule as [|i schedule IH]; intros st Hp; [exact Hp|].
  cbn. apply IH, complete_settled, Hp.
Qed.

(** While a callback is still to run and every callback that ran received
    a present value, the promise is pending and [remaining] counts the
    callbacks still to run. *)
Local Abbreviation undecided rs0 i oi st :=
  (promise B st = None /\
   remaining B st = pending (reactions B st) /\
   (forall j (o : Outcome Reason (Maybe.Maybe T1)),
       reactions B st !! j = Some (Some o) -> rs0 !! j = Some (Some o)) /\
   reactions B st !! i = Some (Some oi)).

Lemma run_undecided (rs0 : list (option (Outcome Reason (Maybe.Maybe T1))))
    (i : nat) (oi : Outcome Reason (Maybe.Maybe T1)) (pre : list nat)
    (st : Exec B) :
  undecided rs0 i oi st ->
  i ∉ pre ->
  (forall j o, j ∈ pre -> rs0 !! j = Some (Some o) ->
               exists val, o = Fulfilled (Maybe.Just val)) ->
  undecided rs0 i oi (foldl (complete B) st pre).
Proof.
  revert st. induction pre as [|j pre IH]; intros st Hst Hi Hpre; [exact Hst|].
  cbn [foldl]. apply IH.
  - destruct Hst as (Hp & Hrem & Hrs & Hri).
    assert (Hji : j <> i) by (intros ->; apply Hi; left).
    unfold complete. destruct (reactions B st !! j) as [[o|]|] eqn:Hj;
      [|repeat split; assumption..].
    destruct (Hpre j o) as [val ->]; [left|apply Hrs, Hj|].
    cbn. rewrite Hrem, <- (pending_insert_None _ _ _ Hj).
    assert (Hri' : <[j:=None]> (reactions B st) !! i = Some (Some oi))
      by (rewrite list_lookup_insert_ne by exact Hji; exact Hri).
    pose proof (pending_positive _ _ _ Hri') as Hpos.
    rewrite decide_False by lia. cbn.
    repeat split; try assumption.
    intros k o Hk. apply Hrs.
    destruct (decide (j = k)) as [->|Hne].
    + rewrite list_lookup_insert_eq in Hk by (eapply lookup_lt_Some, Hj).
      discriminate.
    + rewrite list_lookup_insert_ne in Hk by exact Hne. exact Hk.
  - intros Hin. apply Hi. right. exact Hin.
  - intros k o Hk. apply Hpre. right. exact Hk.
Qed.
End ParallelRun.

Section ParallelCompletion.
Import Builder AsyncMaybe.
Context {Reason T1 TFinish : Type}.
Variable B : Builder T1 TFinish.
Variable w : nat -> T1.
Variable n : nat.
Hypothesis n_pos : 0 < n.
Variable rs0 : list (option (Outcome Reason (Maybe.Maybe T1))).
Hypothesis rs0_lookup :
  forall i, i < n -> rs0 !! i = Some (Some (Fulfilled (Maybe.Just (w i)))).
Variable builder0 : State B.

Local Abbreviation started :=
  ({| remaining := n; builder := builder0; promise := None;
      reactions := rs0 |} : Exec (Reason := Reason) B).
Local Abbreviation added done :=
  (foldl (fun b i => add B (w i) b) builder0 done).

(** The state after the callbacks of [done] ran, in that order, when all
    [n] computations succeed: the builder received their values in that
    order. *)
Lemma completed_state_builder (done : list nat) :
  NoDup done ->
  (forall i, i ∈ done -> i < n) ->
  let st := foldl (complete B) started done in
  remaining B st = n - length done /\
  builder B st = added done /\
  (forall i, i ∉ done -> reactions B st !! i = rs0 !! i) /\
  promise B st =
    if decide (length done = n)
    then Some (Fulfilled (Maybe.Just (finish B (added done))))
    else None.
Proof using n_pos rs0_lookup.
  induction done as [|i done IH] using rev_ind; intros Hnodup Hlt.
  - cbn. repeat split; [lia|]. rewrite decide_False by lia. reflexivity.
  - apply NoDup_app in Hnodup as (Hnodup & Hfresh & _).
    assert (Hi : i ∉ done).
    { intros Hin. apply (Hfresh i Hin), list_elem_of_singleton. reflexivity. }
    assert (Hin : i < n).
    { apply Hlt, elem_of_app. right. apply list_elem_of_singleton. reflexivity. }
    assert (Hlen : length done < n).
    { assert (Hsub : i :: done ⊆+ seq 0 n).
      { apply NoDup_submseteq.
        - apply NoDup_cons. split; assumption.
        - intros j Hj. apply elem_of_seq. split; [lia|]. cbn.
          apply elem_of_cons in Hj as [->|Hj]; [exact Hin|].
          apply Hlt, elem_of_app. left. exact Hj. }
      apply submseteq_length in Hsub. rewrite length_seq in Hsub.
      cbn in Hsub. lia. }
    destruct IH as (Hrem & Hbld & Hrs & Hpr); [exact Hnodup| |].
    { intros j Hj. apply Hlt, elem_of_app. left. exact Hj. }
    rewrite decide_False in Hpr by lia.
    cbn zeta. rewrite !foldl_app. cbn [foldl].
    destruct (foldl (complete B) started done) as [r b p rs].
    cbn in Hrem, Hbld, Hrs, Hpr. subst r b p.
    unfold complete. cbn [reactions].
    rewrite (Hrs i Hi), (rs0_lookup i Hin). cbn.
    rewrite length_app. cbn [length].
    destruct (decide (Init.Nat.pred (n - length done) = 0)) as [Hz|Hnz]; cbn;
      (repeat split; [lia| |]).
    + intros j Hj. rewrite list_lookup_insert_ne.
      { apply Hrs. intros Hjd. apply Hj, elem_of_app. left. exact Hjd. }
      intros ->. apply Hj, elem_of_app. right.
      apply list_elem_of_singleton. reflexivity.
    + rewrite decide_True by lia. reflexivity.
    + intros j Hj. rewrite list_lookup_insert_ne.
      { apply Hrs. intros Hjd. apply Hj, elem_of_app. left. exact Hjd. }
      intros ->. apply Hj, elem_of_app. right.
      apply list_elem_of_singleton. reflexivity.
    + rewrite decide_False by lia. reflexivity.
Qed.
End ParallelCompletion.

Section ParallelTraversal.
Import Builder AsyncMaybe.
Context {Reason T T1 TFinish : Type}.
Variable B : Builder T1 TFinish.

Lemma dispatched_state (f : T -> nat -> Outcome Reason (Maybe.Maybe T1))
    (elems : list T) (builder : State B) :
  dispatched f B elems builder =
    {| remaining := length elems; builder := builder; promise := None;
       reactions := imap (fun i elem => Some (f elem i)) elems |}.
Proof. unfold dispatched. rewrite dispatch_spec. reflexivity. Qed.

(** X22: the first computation to complete with anything but a present
    value decides the result, whatever completes after it: an absent value
    fulfils the promise with Nothing and a rejection rejects it. *)
Theorem traverseIntoPar_first_failure
    (f : T -> nat -> Outcome Reason (Maybe.Maybe T1)) (elems : list T)
    (builder : State B) (pre post : list nat) (i : nat) (elem : T) :
  elems !! i = Some elem ->
  (forall val, f elem i <> Fulfilled (Maybe.Just val)) ->
  i ∉ pre ->
  (forall j x, j ∈ pre -> elems !! j = Some x ->
               exists val, f x j = Fulfilled (Maybe.Just val)) ->
  traverseIntoPar f B elems builder (pre ++ i :: post) =
    Some match f elem i with
         | Fulfilled _ => Fulfilled Maybe.Nothing
         | Rejected reason => Rejected reason
         end.
Proof.
  intros Hi Hfail Hfresh Hpre.
  unfold traverseIntoPar. rewrite dispatched_state, foldl_app. cbn [foldl].
  set (rs0 := imap (fun i elem => Some (f elem i)) elems).
  set (st0 := {| remaining := length elems; builder := builder;
                 promise := None; reactions := rs0 |}).
  assert (Hrs0 : forall j o, rs0 !! j = Some (Some o) ->
                             exists x, elems !! j = Some x /\ o = f x j).
  { intros j o Hj. unfold rs0 in Hj. rewrite list_lookup_imap in Hj.
    destruct (elems !! j) as [x|]; [|discriminate].
    injection Hj as <-. eauto. }
  destruct (run_undecided B rs0 i (f elem i) pre st0) as (Hp & _ & _ & Hri).
  - repeat split; cbn.
    + apply eq_sym, pending_all_Some.
    + auto.
    + unfold rs0. rewrite list_lookup_imap, Hi. reflexivity.
  - exact Hfresh.
  - intros j o Hj Ho. destruct (Hrs0 j o Ho) as (x & Hx & ->).
    apply (Hpre j x Hj Hx).
  - apply run_settled. set (st1 := foldl (complete B) st0 pre) in *.
    unfold complete. rewrite Hri.
    destruct (f elem i) as [[|val]|reason]; cbn.
    + unfold resolve. cbn. rewrite Hp. reflexivity.
    + destruct (Hfail val). reflexivity.
    + unfold reject. cbn. rewrite Hp. reflexivity.
Qed.

(** X23: once the promise is settled, later completions do not change it:
    the results of the computations still in flight are discarded. *)
Theorem traverseIntoPar_settles_once
    (f : T -> nat -> Outcome Reason (Maybe.Maybe T1)) (elems : list T)
    (builder : State B) (schedule later : list nat)
    (o : Outcome Reason (Maybe.Maybe TFinish)) :
  traverseIntoPar f B elems builder schedule = Some o ->
  traverseIntoPar f B elems builder (schedule ++ later) = Some o.
Proof.
  unfold traverseIntoPar. intros Hs. rewrite foldl_app.
  apply run_settled, Hs.
Qed.

Lemma foldl_add_lookup (g : T -> nat -> T1) (elem0 : T) (elems : list T)
    (schedule : list nat) (builder : State B) :
  (forall i, i ∈ schedule -> i < length elems) ->
  foldl (fun b i => add B (g (default elem0 (elems !! i)) i) b) builder schedule =
  foldl (fun b i => match elems !! i with
                    | Some elem => add B (g elem i) b
                    | None => b
                    end) builder schedule.
Proof.
  revert builder. induction schedule as [|i schedule IH]; intros builder Hlt.
  - reflexivity.
  - cbn [foldl].
    destruct (lookup_lt_is_Some_2 elems i) as [x Hx]; [apply Hlt; left|].
    rewrite Hx. cbn. apply IH. intros j Hj. apply Hlt. right. exact Hj.
Qed.

(** X24: when every computation succeeds, the promise is fulfilled once the
    last one completes, with what the builder finishes with after the
    values were added to it in the order of completion. *)
Theorem traverseIntoPar_all_Just (g : T -> nat -> T1) (elems : list T)
    (builder : State B) (schedule : list nat) :
  elems <> [] ->
  schedule ≡ₚ seq 0 (length elems) ->
  traverseIntoPar (Reason := Reason)
    (fun elem idx => Fulfilled (Maybe.Just (g elem idx))) B elems builder
    schedule =
    Some (Fulfilled (Maybe.Just (finish B
      (foldl (fun b i => match elems !! i with
                         | Some elem => add B (g elem i) b
                         | None => b
                         end) builder schedule)))).
Proof.
  intros Hne Hperm.
  destruct elems as [|elem0 elems']; [contradiction|].
  set (elems := elem0 :: elems') in *.
  assert (Hlt : forall i, i ∈ schedule -> i < length elems).
  { intros i Hi. rewrite Hperm in Hi. apply elem_of_seq in Hi. lia. }
  unfold traverseIntoPar. rewrite dispatched_state.
  destruct (completed_state_builder (Reason := Reason) B
              (fun i => g (default elem0 (elems !! i)) i) (length elems)
              ltac:(cbn; lia)
              (imap (fun i elem => Some (Fulfilled (Maybe.Just (g elem i)))) elems)
              ltac:(intros i Hi; rewrite list_lookup_imap;
                    destruct (lookup_lt_is_Some_2 elems i Hi) as [x Hx];
                    rewrite Hx; reflexivity)
              builder schedule) as (_ & _ & _ & Hpr).
  - rewrite Hperm. apply NoDup_seq.
  - exact Hlt.
  - rewrite Hpr, decide_True by (rewrite Hperm; apply length_seq).
    rewrite (foldl_add_lookup g elem0 elems schedule builder Hlt). reflexivity.
Qed.
End ParallelTraversal.

Lemma traverseIntoPar_first_failure_witness :
  AsyncMaybe.traverseIntoPar (Reason := unit)
    (fun elem idx =>
       AsyncMaybe.Fulfilled
         (if Nat.eqb idx 1 then Maybe.Nothing else Maybe.Just elem))
    {| Builder.State := nat;
       Builder.add := fun val total => total + val;
       Builder.finish := fun total => total |}
    [10; 20; 30] 0 ([2] ++ 1 :: [0])
  = Some (AsyncMaybe.Fulfilled Maybe.Nothing).
Proof.
  match goal with
  | |- AsyncMaybe.traverseIntoPar ?f ?B _ _ _ = _ =>
      apply (traverseIntoPar_first_failure B f [10; 20; 30] 0 [2] [0] 1 20)
  end.
  - reflexivity.
  - discriminate.
  - intros Hin. apply list_elem_of_singleton in Hin. discriminate.
  - intros j x Hj%list_elem_of_singleton Hx. subst j. eexists. reflexivity.
Defined.

Lemma traverseIntoPar_settles_once_witness :
  AsyncMaybe.traverseIntoPar (Reason := unit)
    (fun elem idx =>
       AsyncMaybe.Fulfilled
         (if Nat.eqb idx 1 then Maybe.Nothing else Maybe.Just elem))
    {| Builder.State := nat;
       Builder.add := fun val total => total + val;
       Builder.finish := fun total => total |}
    [10; 20; 30] 0 ([1] ++ [0; 2])
  = Some (AsyncMaybe.Fulfilled Maybe.Nothing).
Proof. apply traverseIntoPar_settles_once. reflexivity. Defined.

Lemma traverseIntoPar_all_Just_witness :
  AsyncMaybe.traverseIntoPar (Reason := unit)
    (fun elem idx => AsyncMaybe.Fulfilled (Maybe.Just (elem + idx)))
    {| Builder.State := list nat;
       Builder.add := fun val elems => elems ++ [val];
       Builder.finish := fun elems => elems |}
    [10; 20; 30] [] [2; 0; 1]
  = Some (AsyncMaybe.Fulfilled (Maybe.Just [32; 10; 21])).
Proof.
  match goal with
  | |- AsyncMaybe.traverseIntoPar _ ?B _ _ _ = _ =>
      apply (traverseIntoPar_all_Just B (fun elem idx => elem + idx)
               [10; 20; 30] [] [2; 0; 1])
  end.
  - discriminate.
  - cbn. etrans; [apply perm_swap|]. apply perm_skip, perm_swap.
Defined.

(** ** Comprehensions and chaining *)

Section ComprehensionChaining.
Import Generator.
Context {Ev E V TReturn : Type}.

(** X25: a comprehension that starts with [yield* m] is [m] chained with
    the rest of the comprehension: under [Either.step] with [flatMap], under
    [Maybe.go] with [andThen]; the rest does not run, and performs no
    effect, when [m] is a failure. *)
Theorem comprehension_yieldStar_bind :
  (forall (undefined : E) (m : Either.Either E V)
          (k : V -> Generator Ev (Either.Either E V) V (Either.OrHalt TReturn)),
      Either.step undefined (bind (Either.yieldStar m) k) =
        match m with
        | Either.Left e => ([], Either.Left e)
        | Either.Right v => Either.step undefined (k v)
        end /\
      (Either.step undefined (bind (Either.yieldStar m) k)).2 =
        Either.flatMap m (fun v => (Either.step undefined (k v)).2)) /\
  (forall (undefined : TReturn) (m : Maybe.Maybe V)
          (k : V -> Generator Ev (Maybe.Maybe V) V TReturn),
      Maybe.go undefined (bind (Maybe.yieldStar m) k) =
        match m with
        | Maybe.Nothing => ([], Maybe.Nothing)
        | Maybe.Just v => Maybe.go undefined (k v)
        end /\
      (Maybe.go undefined (bind (Maybe.yieldStar m) k)).2 =
        Maybe.andThen m (fun v => (Maybe.go undefined (k v)).2)).
Proof.
  split; intros undefined [|v] k; split; reflexivity.
Qed.
End ComprehensionChaining.

Section CleanupOnce.
Import Generator.
Context {Ev E V TReturn : Type} `{EqDecision Ev}.

(** X26: under [Either.step], the cleanup of
    [try { body } finally { cleanup }] runs exactly once before [step]
    returns, whether [body] completes, returns, or is halted at a yielded
    Left, for a cleanup event that the generator performs nowhere else. *)
Theorem Either_step_cleanup_once {A : Type} (undefined : E) (cleanup : Ev)
    (body : Gen Ev (Either.Either E V) V (Either.OrHalt TReturn) A)
    (rest : A -> Generator Ev (Either.Either E V) V (Either.OrHalt TReturn)) :
  ~ performs cleanup body ->
  (forall a, ~ performs cleanup (rest a)) ->
  occurrences cleanup
    (Either.step undefined (bind (tryFinally body (effect cleanup)) rest)).1 = 1.
Proof.
  intros Hbody Hrest. unfold Either.step.
  rewrite (Either_step_from_cleanup_once cleanup body rest Hbody Hrest).
  reflexivity.
Qed.

(** X27: under [Maybe.go], the cleanup of
    [try { body } finally { cleanup }] runs exactly once before [go]
    returns, whether [body] completes, returns, or is halted at a yielded
    Nothing, for a cleanup event that the generator performs nowhere
    else. *)
Theorem Maybe_go_cleanup_once {A : Type} (undefined : TReturn) (cleanup : Ev)
    (body : Gen Ev (Maybe.Maybe V) V TReturn A)
    (rest : A -> Generator Ev (Maybe.Maybe V) V TReturn) :
  ~ performs cleanup body ->
  (forall a, ~ performs cleanup (rest a)) ->
  occurrences cleanup
    (Maybe.go undefined (bind (tryFinally body (effect cleanup)) rest)).1 = 1.
Proof.
  intros Hbody Hrest. unfold Maybe.go.
  rewrite (Maybe_go_from_cleanup_once undefined cleanup body rest Hbody Hrest).
  reflexivity.
Qed.
End CleanupOnce.

Lemma Either_step_cleanup_once_witness :
  Generator.occurrences 7
    (Either.step (E := nat) (TReturn := nat) 0
       (Generator.bind
          (Generator.tryFinally
             (Generator.bind (Either.yieldStar (V := nat) (Either.Right 1))
                (fun v => Generator.bind (Generator.effect 3)
                   (fun _ => Either.yieldStar (Either.Left v))))
             (Generator.effect 7))
          (fun v => Generator.Return (Either.returned v)))).1 = 1.
Proof.
  apply Either_step_cleanup_once.
  - cbn. intros [[v|r] H]; cbn in H.
    + destruct H as [H|[[w|r] H]]; [discriminate|destruct H..].
    + destruct H.
  - intros a H. destruct H.
Defined.

Lemma Maybe_go_cleanup_once_witness :
  Generator.occurrences 7
    (Maybe.go (TReturn := nat) 0
       (Generator.bind
          (Generator.tryFinally
             (Generator.bind (Maybe.yieldStar (V := nat) (Maybe.Just 1))
                (fun v => Generator.bind (Generator.effect 3)
                   (fun _ => Maybe.yieldStar Maybe.Nothing)))
             (Generator.effect 7))
          (fun v => Generator.Return v))).1 = 1.
Proof.
  apply Maybe_go_cleanup_once.
  - cbn. intros [[v|r] H]; cbn in H.
    + destruct H as [H|[[w|r] H]]; [discriminate|destruct H..].
    + destruct H.
  - intros a H. destruct H.
Defined.

(** ** Lifting and collecting into a builder *)

Section Lifting.
Import Generator Builder.
Context {Ev E : Type}.

(** X28: [lift(f)] applied to successes succeeds with [f] of their values,
    in the order of the arguments; applied to arguments one of which is a
    Left it fails with the first Left, and the result does not depend on
    [f]. *)
Theorem Either_lift_arguments {T T1 : Type} (undefined : E)
    (f : Array T -> T1) (vals : list T) (e : E)
    (rest : list (Either.Either E T)) :
  Either.lift (Ev := Ev) undefined f (Either.Right <$> vals) =
    ([], Either.Right (f (Some <$> vals))) /\
  Either.lift (Ev := Ev) undefined f
    ((Either.Right <$> vals) ++ Either.Left e :: rest) =
    ([], Either.Left e).
Proof.
  unfold Either.lift, Either.collect, Either.go, Either.step. split.
  - rewrite length_fmap.
    rewrite (Either_step_from_collect_Right vals [] undefined []).
    reflexivity.
  - rewrite Either_step_from_collect_Left. reflexivity.
Qed.

Lemma Maybe_go_from_allInto_Just {T TFinish : Type} (undef : TFinish)
    (B : Builder T TFinish) (vals : list T) (idx : nat) (builder : State B)
    (log : list Ev) :
  Maybe.go_from undef
    (Maybe.traverseInto_loop (fun elem _ => id elem) B (Maybe.Just <$> vals)
       idx builder) false log =
    (log, Maybe.Just (finish B (foldl (fun b val => add B val b) builder vals))).
Proof.
  revert idx builder. induction vals as [|val vals IH]; intros idx builder.
  - reflexivity.
  - cbn. apply IH.
Qed.

(** X29: [allInto] of present values adds them to the builder in the order
    of the elements and succeeds with what the builder finishes with;
    of elements one of which is absent it returns Nothing. *)
Theorem Maybe_allInto_elements {T TFinish : Type} (undef : TFinish)
    (B : Builder T TFinish) (builder : State B) (vals : list T)
    (pre post : list (Maybe.Maybe T)) :
  Maybe.allInto (Ev := Ev) undef (Maybe.Just <$> vals) B builder =
    ([], Maybe.Just (finish B (foldl (fun b val => add B val b) builder vals))) /\
  Maybe.allInto (Ev := Ev) undef (pre ++ Maybe.Nothing :: post) B builder =
    ([], Maybe.Nothing).
Proof.
  unfold Maybe.allInto, Maybe.traverseInto, Maybe.go. split.
  - apply Maybe_go_from_allInto_Just.
  - apply (Maybe_go_from_traverseInto_Nothing undef _ B _ 0 builder []
             (length pre) Maybe.Nothing).
    + rewrite lookup_app_r, Nat.sub_diag by lia. reflexivity.
    + reflexivity.
Qed.
End Lifting.
